(** * apostrophe-pages: the page tree over a flat document store

    A shallow embedding of [index.js]: the ancestor and descendant
    queries, the rank allocator, the [new], [edit] and [delete] route
    handlers and the outcome selection of [serve].  Strings are byte
    strings, JavaScript numbers that hold levels and ranks are integers,
    the [pages] collection is a list of documents in natural order and the
    [redirects] collection is a finite map keyed by [from]. *)

From Stdlib Require Import ZArith Lia Ascii String.
From stdpp Require Import base list strings gmap sorting.

Local Open Scope string_scope.
Local Open Scope list_scope.

(** ** JavaScript string primitives used by the module *)

Module Str.

Definition slash : ascii := "/"%char.
Definition dollar : ascii := "$"%char.

(** [s.substr(n)] for [0 <= n]. *)
Fixpoint drop (n : nat) (s : string) : string :=
  match n, s with
  | O, _ => s
  | S _, EmptyString => EmptyString
  | S k, String _ r => drop k r
  end.

(** [s.substr(0, n)]; a negative length reads as [0]. *)
Definition substr0 (s : string) (n : Z) : string :=
  String.substring 0 (Z.to_nat n) s.

(** Occurrence of a character. *)
Fixpoint has (c : ascii) (s : string) : bool :=
  match s with
  | EmptyString => false
  | String a r => if Ascii.eqb a c then true else has c r
  end.

(** [s.lastIndexOf(c)], [-1] when [c] does not occur. *)
Fixpoint lastIndexOf (c : ascii) (s : string) : Z :=
  match s with
  | EmptyString => (-1)%Z
  | String a r =>
      let k := lastIndexOf c r in
      if (0 <=? k)%Z then (k + 1)%Z
      else if Ascii.eqb a c then 0%Z else (-1)%Z
  end.

(** [s.split('/')]: the empty string splits into one empty component. *)
Fixpoint split (s : string) : list string :=
  match s with
  | EmptyString => [EmptyString]
  | String a r =>
      if Ascii.eqb a slash then EmptyString :: split r
      else match split r with
           | h :: t => String a h :: t
           | [] => [String a EmptyString]
           end
  end.

(** [s.replace(/\/+/g, '/')]: every run of slashes becomes one slash. *)
Fixpoint collapse (s : string) : string :=
  match s with
  | EmptyString => EmptyString
  | String a r =>
      if Ascii.eqb a slash then
        match r with
        | String b _ => if Ascii.eqb b slash then collapse r
                        else String a (collapse r)
        | EmptyString => String a EmptyString
        end
      else String a (collapse r)
  end.

(** [s.replace(/\/$/, '')]: one slash at the very end is removed. *)
Fixpoint stripTrailing (s : string) : string :=
  match s with
  | EmptyString => EmptyString
  | String a EmptyString =>
      if Ascii.eqb a slash then EmptyString else s
  | String a r => String a (stripTrailing r)
  end.

(** [s.replace('//', '/')]: a string pattern replaces the first
    occurrence only. *)
Fixpoint replaceFirstDouble (s : string) : string :=
  match s with
  | EmptyString => EmptyString
  | String a r =>
      match r with
      | String b r' =>
          if Ascii.eqb a slash && Ascii.eqb b slash then String slash r'
          else String a (replaceFirstDouble r)
      | EmptyString => s
      end
  end.

(** The replacement text of [String.prototype.replace]: [$$] is a
    dollar, [$&] the match, [$`] what precedes it and [$'] what follows
    it.  The patterns of this module have no capture groups, so a
    dollar before any other character stands for itself. *)
Fixpoint expand (before matched after repl : string) : string :=
  match repl with
  | EmptyString => EmptyString
  | String a r =>
      if Ascii.eqb a dollar then
        match r with
        | String b r' =>
            if Ascii.eqb b dollar then String dollar (expand before matched after r')
            else if Ascii.eqb b "&"%char then matched +:+ expand before matched after r'
            else if Ascii.eqb b "`"%char then before +:+ expand before matched after r'
            else if Ascii.eqb b "'"%char then after +:+ expand before matched after r'
            else String a (expand before matched after r)
        | EmptyString => String a EmptyString
        end
      else String a (expand before matched after r)
  end.

(** [s.replace(new RegExp('^' + RegExp.quote(p)), repl)]. *)
Definition replacePrefix (p repl s : string) : string :=
  if String.prefix p s then
    let rest := drop (String.length p) s in
    expand "" p rest repl +:+ rest
  else s.

(** [s.trim()] on the ASCII white space characters. *)
Definition isSpace (a : ascii) : bool :=
  let n := Ascii.nat_of_ascii a in
  (n =? 32)%nat || ((9 <=? n)%nat && (n <=? 13)%nat).

Fixpoint trimLeft (s : string) : string :=
  match s with
  | EmptyString => EmptyString
  | String a r => if isSpace a then trimLeft r else s
  end.

Fixpoint trimRight (s : string) : string :=
  match s with
  | EmptyString => EmptyString
  | String a r =>
      match trimRight r with
      | EmptyString => if isSpace a then EmptyString else String a EmptyString
      | r' => String a r'
      end
  end.

Definition trim (s : string) : string := trimRight (trimLeft s).

End Str.

(** ** Data model *)

(** A page document.  [typeData] holds the properties that
    [addSanitizedTypeData] stores under the name of the page type; [url]
    is the transient property that the tree queries attach to the
    documents they return.  Only documents of the page tree are
    represented: they carry a [path], a [level] and a [rank]. *)
Record Page := mkPage {
  title : string;
  slug : string;
  path : string;
  level : Z;
  rank : Z;
  type : string;
  areas : string;
  typeData : list (string * string);
  url : option string
}.

#[global] Instance Page_eq_dec : EqDecision Page.
Proof. solve_decision. Defined.

Definition withUrl (u : string) (p : Page) : Page :=
  mkPage (title p) (slug p) (path p) (level p) (rank p) (type p) (areas p)
         (typeData p) (Some u).

Definition withSlug (s : string) (p : Page) : Page :=
  mkPage (title p) s (path p) (level p) (rank p) (type p) (areas p)
         (typeData p) (url p).

Definition withTypeData (k v : string) (p : Page) : Page :=
  mkPage (title p) (slug p) (path p) (level p) (rank p) (type p) (areas p)
         ((k, v) :: filter (λ kv, kv.1 ≠ k) (typeData p)) (url p).

(** What a sanitizer hands to its callback. *)
Inductive Sanitized :=
| Clean (data : string)
| Rejected (err : string).

(** A registered page type: [settings.sanitize] is optional. *)
Record PageType := mkType {
  name : string;
  group : option string;
  sanitize : option (string → Sanitized)
}.

(** The state of an [async.series] chain: a value handed on, an error
    passed to the final callback, or a JavaScript exception. *)
Inductive Result (A : Type) :=
| Ok (a : A)
| Err (e : string)
| Thrown (e : string).
Arguments Ok {A} a.
Arguments Err {A} e.
Arguments Thrown {A} e.

Abbreviation Store := (list Page).

(** The two collections the module reads and writes. *)
Record World := mkWorld {
  pages : Store;
  redirects : gmap string string
}.

(** ** The document store *)

Definition slugs (st : Store) : list string := slug <$> st.
Definition paths (st : Store) : list string := path <$> st.

(** Both indexes hold: [slug] and [path] are unique keys. *)
Definition uniqueKeys (st : Store) : Prop :=
  NoDup (slugs st) ∧ NoDup (paths st).

Definition keysFree (page : Page) (others : Store) : bool :=
  bool_decide (slug page ∉ slugs others) && bool_decide (path page ∉ paths others).

Definition duplicateKey : string := "E11000 duplicate key error".

(** [pages.findOne({ slug: s })]. *)
Definition findBySlug (st : Store) (s : string) : option Page :=
  snd <$> list_find (λ p, slug p = s) st.

(** The longer of two candidates for the best page. *)
Definition longer (best : option Page) (p : Page) : option Page :=
  match best with
  | Some b => if (String.length (slug b) <? String.length (slug p))%nat
              then Some p else best
  | None => Some p
  end.

(** Modelled from the spec: [apos.getPage] belongs to the apostrophe
    module.  An exact match on [slug] gives the page, which is then also
    the best page with an empty remainder; otherwise the best page is the
    page with the longest slug that, followed by a slash, begins the
    requested address, and the remainder is what follows that slash. *)
Definition getPage (st : Store) (s : string) : option Page * option Page * string :=
  match findBySlug st s with
  | Some p => (Some p, Some p, "")
  | None =>
      match foldl longer None
                  (filter (λ p, String.prefix (slug p +:+ "/") s) st) with
      | Some b => (None, Some b, Str.drop (String.length (slug b) + 1) s)
      | None => (None, None, "")
      end
  end.

(** Modelled from the spec: [apos.putPage] belongs to the apostrophe
    module.  It persists the document under the given slug, replacing the
    document stored there or inserting a new one; the store refuses a
    write that would break one of its unique indexes. *)
Definition putPage (s : string) (page : Page) (st : Store) : Result Store :=
  match list_find (λ p, slug p = s) st with
  | Some (i, _) =>
      if keysFree page (delete i st) then Ok (<[i := page]> st)
      else Err duplicateKey
  | None =>
      if keysFree page st then Ok (st ++ [page]) else Err duplicateKey
  end.

(** [pages.update({ slug: old }, { $set: { slug: new } })]: the first
    matching document is updated, none when nothing matches; as for
    [putPage], the unique index on [slug] refuses a duplicate. *)
Definition updateSlug (old new : string) (st : Store) : Result Store :=
  match list_find (λ p, slug p = old) st with
  | Some (i, p) =>
      if bool_decide (new ∈ slugs (delete i st)) then Err duplicateKey
      else Ok (<[i := withSlug new p]> st)
  | None => Ok st
  end.

(** [pages.remove({ slug: s })]. *)
Definition removeBySlug (s : string) (st : Store) : Store :=
  filter (λ p, slug p ≠ s) st.

(** Modelled from the spec: [apos.updateRedirect] belongs to the
    apostrophe module; the latest mapping for a [from] address wins. *)
Definition updateRedirect (from to : string) (r : gmap string string) : gmap string string :=
  <[from := to]> r.

(** ** Sort orders of the two tree queries *)

(** [sort({ path: 1 })]: byte-wise comparison of the paths. *)
Definition pathLe (p q : Page) : Prop := String.le (path p) (path q).

(** [sort({ level: 1, rank: 1 })]. *)
Definition levelRankLe (p q : Page) : Prop :=
  (level p < level q ∨ (level p = level q ∧ rank p ≤ rank q))%Z.

#[global] Instance pathLe_dec : RelDecision pathLe.
Proof. intros p q. unfold pathLe. apply _. Defined.

#[global] Instance levelRankLe_dec : RelDecision levelRankLe.
Proof. intros p q. unfold levelRankLe. apply _. Defined.

(** ** getAncestors *)

(** The body of the [_.each] over the path components: [acc.1] is the
    local [path], [acc.2] the array [paths]. *)
Definition ancestorStep (pagePath : string) (acc : string * list string)
    (component : string) : string * list string :=
  let path := acc.1 +:+ component in
  if String.eqb path pagePath then (path, acc.2)
  else (path +:+ "/", acc.2 ++ [path]).

Definition ancestorPaths (pagePath : string) : list string :=
  (foldl (ancestorStep pagePath) ("", []) (Str.split pagePath)).2.

(** [None] is the call [callback(null)] of a page whose path is empty:
    the callback receives no array at all. *)
Definition getAncestors (root : string) (st : Store) (page : Page) : option (list Page) :=
  if String.eqb (path page) "" then None
  else
    Some ((λ p, withUrl (root +:+ slug p) p) <$>
          merge_sort pathLe
            (filter (λ p, path p ∈ ancestorPaths (path page)) st)).

(** ** getDescendants *)

(** The nested result.  A returned object is known by its position in
    the sorted query result: [nodes] are the objects, [kids] their
    [children] arrays and [top] the array handed to the callback. *)
Record Descendants := mkDescendants {
  nodes : list Page;
  kids : list (list nat);
  top : list nat
}.

Record NestState := mkNest {
  pagesByPath : gmap string nat;
  nestKids : list (list nat);
  nestTop : list nat
}.

Definition parentPath (p : string) : string :=
  Str.substr0 p (Str.lastIndexOf Str.slash p).

(** One turn of the [_.each] over the query result; the object at hand
    is the next one, so its position is the number of objects seen.
    [pagesByPath] is the object used as a map from paths to objects; the
    names it inherits from [Object.prototype] are not paths of the tree
    and are left out. *)
Definition nestStep (s : NestState) (page : Page) : NestState :=
  let i := length (nestKids s) in
  let children := nestKids s ++ [[]] in
  let byPath := <[path page := i]> (pagesByPath s) in
  match byPath !! parentPath (path page) with
  | Some j => mkNest byPath (alter (λ c, c ++ [i]) j children) (nestTop s)
  | None => mkNest byPath children (nestTop s ++ [i])
  end.

Definition inSubtree (page : Page) (depth : Z) (p : Page) : Prop :=
  String.prefix (path page +:+ "/") (path p) = true ∧
  (level page < level p ∧ level p ≤ level page + depth)%Z.

#[global] Instance inSubtree_dec page depth p : Decision (inSubtree page depth p).
Proof. unfold inSubtree. apply _. Defined.

Definition descendantQuery (st : Store) (page : Page) (depth : Z) : list Page :=
  merge_sort levelRankLe (filter (inSubtree page depth) st).

Definition getDescendants (root : string) (st : Store) (page : Page) (depth : Z) : Descendants :=
  let found := descendantQuery st page depth in
  let s := foldl nestStep (mkNest ∅ [] []) found in
  mkDescendants ((λ p, withUrl (root +:+ slug p) p) <$> found) (nestKids s) (nestTop s).

(** The array handed to the callback, as page objects. *)
Definition topPages (d : Descendants) : list Page :=
  omap (λ i, nodes d !! i) (top d).

(** The returned forest read off the object graph. *)
#[warnings="-register-all"]
Inductive Tree := Node (page : Page) (children : list Tree).

Fixpoint subtree (fuel : nat) (d : Descendants) (i : nat) : list Tree :=
  match fuel with
  | O => []
  | S f =>
      match nodes d !! i with
      | Some p => [Node p (flat_map (subtree f d) (kids d !!! i))]
      | None => []
      end
  end.

Definition forest (d : Descendants) : list Tree :=
  flat_map (subtree (length (nodes d)) d) (top d).

(** ** Requests *)

(** The body of a POST to one of the three routes; [bData] holds the
    properties other than the five the handlers name. *)
Record Body := mkBody {
  bTitle : string;
  bType : string;
  bParent : string;
  bSlug : string;
  bOriginalSlug : string;
  bData : list (string * string)
}.

Record Request := mkRequest {
  user : option string;
  body : Body
}.

(** [req.body[k]]. *)
Definition bodyProp (b : Body) (k : string) : option string :=
  if String.eqb k "title" then Some (bTitle b)
  else if String.eqb k "type" then Some (bType b)
  else if String.eqb k "parent" then Some (bParent b)
  else if String.eqb k "slug" then Some (bSlug b)
  else if String.eqb k "originalSlug" then Some (bOriginalSlug b)
  else snd <$> List.find (λ kv, String.eqb kv.1 k) (bData b).

(** [page[type.name] = data] is kept in [typeData], which is right for
    every type whose name is not the name of a property the handlers set
    themselves: a sanitizing type called "path" or "rank" would overwrite
    that property.  [typeNamesOk] rules such registries out, and the
    statements about stored slugs, paths and ranks are made under it. *)
Definition coreFields : list string :=
  ["title"; "slug"; "path"; "level"; "rank"; "type"; "areas"].

Definition typeNamesOk (types : list PageType) : Prop :=
  ∀ t, t ∈ types → is_Some (sanitize t) → name t ∉ coreFields.

Section Routes.

(** The collaborators: [apos.slugify] with its optional [allowed]
    characters, [apos.permissions] applied to the user of the request,
    an action and a subject that may be [undefined], and the registered
    page types [aposPages.types]. *)
Variable slugify : string → option string → string.
Variable permissions : option string → string → option Page → option string.
Variable types : list PageType.

Definition getType (n : string) : option PageType :=
  List.find (λ t, String.eqb (name t) n) types.

Definition determineType (req : Request) : option PageType :=
  match getType (bType (body req)) with
  | Some t => Some t
  | None => getType "default"
  end.

Definition addSanitizedTypeData (req : Request) (page : Page) (ty : PageType) : Result Page :=
  match sanitize ty with
  | Some f =>
      let submitted :=
        match bodyProp (body req) (name ty) with
        | Some d => if String.eqb d "" then "{}" else d
        | None => "{}"
        end in
      match f submitted with
      | Rejected e => Err e
      | Clean data => Ok (withTypeData (name ty) data page)
      end
  | None => Ok page
  end.

(** *** POST /apos-pages/new *)

Definition addSlashIfNeeded (path : string) : string :=
  Str.replaceFirstDouble (path +:+ "/").

(** The [_.reduce] of [getNextRank]. *)
Definition getNextRank (children : list Page) : Z :=
  foldl (λ memo child, if (memo <=? rank child)%Z then (rank child + 1)%Z else memo)
        1%Z children.

Definition newHandler (st : Store) (req : Request) : Result Page * Store :=
  let title := Str.trim (bTitle (body req)) in
  let title := if String.eqb title "" then "New Page" else title in
  let type := determineType req in
  let parentSlug := bParent (body req) in
  match (getPage st parentSlug).1.1 with
  | None => (Err "Bad parent", st)
  | Some parent =>
      match permissions (user req) "add-page" (Some parent) with
      | Some e => (Err e, st)
      | None =>
          let nextRank := getNextRank (topPages (getDescendants "" st parent 1)) in
          match type with
          | None => (Thrown "TypeError", st)
          | Some ty =>
              let page :=
                mkPage title
                       (addSlashIfNeeded parentSlug +:+ slugify title None)
                       (path parent +:+ "/" +:+ slugify title None)
                       (level parent + 1) nextRank (name ty) "{}" [] None in
              match addSanitizedTypeData req page ty with
              | Ok page =>
                  match putPage (slug page) page st with
                  | Ok st' => (Ok page, st')
                  | Err e => (Err e, st)
                  | Thrown e => (Thrown e, st)
                  end
              | Err e => (Err e, st)
              | Thrown e => (Thrown e, st)
              end
          end
      end
  end.

(** *** POST /apos-pages/edit *)

Definition normalizeSlug (raw : string) : string :=
  let slug' := slugify raw (Some "/") in
  let slug' := if String.prefix "/" slug' then slug' else "/" +:+ slug' in
  let slug' := Str.collapse slug' in
  Str.stripTrailing slug'.

(** The [async.mapSeries] of [updateDescendants]: one update per
    fetched descendant, stopping at the first error. *)
Fixpoint cascade (originalSlug slug' : string) (descendants : list Page) (st : Store) : option string * Store :=
  match descendants with
  | [] => (None, st)
  | descendant :: rest =>
      let newSlug :=
        Str.replacePrefix (originalSlug +:+ "/") (slug' +:+ "/") (slug descendant) in
      match updateSlug (slug descendant) newSlug st with
      | Ok st' => cascade originalSlug slug' rest st'
      | Err e => (Some e, st)
      | Thrown e => (Some e, st)
      end
  end.

Definition updateDescendants (originalSlug slug' : string) (st : Store) : option string * Store :=
  if String.eqb originalSlug slug' then (None, st)
  else
    cascade originalSlug slug'
            (filter (λ p, String.prefix (originalSlug +:+ "/") (slug p) = true) st) st.

Definition editHandler (w : World) (req : Request) : Result Page * World :=
  let title := Str.trim (bTitle (body req)) in
  let title := if String.eqb title "" then "Untitled Page" else title in
  let type := determineType req in
  let originalSlug := bOriginalSlug (body req) in
  let slug' := normalizeSlug (bSlug (body req)) in
  match (getPage (pages w) originalSlug).1.1 with
  | None => (Err "Bad page", w)
  | Some page =>
      match permissions (user req) "edit" (Some page) with
      | Some e => (Err e, w)
      | None =>
          match type with
          | None => (Thrown "TypeError", w)
          | Some ty =>
              let page :=
                mkPage title slug' (path page) (level page) (rank page) (name ty)
                       (areas page) (typeData page) (url page) in
              if negb (String.eqb slug' originalSlug) && String.eqb originalSlug "/" then
                (Err "Cannot change the slug of the home page", w)
              else
                match addSanitizedTypeData req page ty with
                | Ok page =>
                    match putPage originalSlug page (pages w) with
                    | Ok st1 =>
                        let r := updateRedirect originalSlug slug' (redirects w) in
                        match updateDescendants originalSlug slug' st1 with
                        | (None, st2) => (Ok page, mkWorld st2 r)
                        | (Some e, st2) => (Err e, mkWorld st2 r)
                        end
                    | Err e => (Err e, w)
                    | Thrown e => (Thrown e, w)
                    end
                | Err e => (Err e, w)
                | Thrown e => (Thrown e, w)
                end
          end
      end
  end.

(** *** POST /apos-pages/delete *)

(** The steps run in the order of the [async.series] array:
    [getPage], [permissions], [getParent], [checkChildren],
    [deletePage].  The variable [parent] is assigned by [getParent], so
    it is still [undefined] when [permissions] reads it.  The result is
    the slug of the parent that [respond] sends back. *)
Definition deleteHandler (st : Store) (req : Request) : Result string * Store :=
  let pageSlug := bSlug (body req) in
  match (getPage st pageSlug).1.1 with
  | None => (Err "Not Found", st)
  | Some page =>
      let parent : option Page := None in
      match permissions (user req) "add-page" parent with
      | Some e => (Err e, st)
      | None =>
          match getAncestors "" st page with
          | None => (Thrown "TypeError", st)
          | Some ancestors =>
              match last ancestors with
              | None => (Err "Cannot remove home page", st)
              | Some parent =>
                  if bool_decide (top (getDescendants "" st page 1) ≠ []) then
                    (Err "Remove child pages first", st)
                  else (Ok (slug parent), removeBySlug (slug page) st)
              end
          end
      end
  end.

(** *** serve *)

(** The request object as the steps of [serve] see it; [sAncestors]
    and [sChildren] are the properties attached to [req.bestPage]. *)
Record ServeReq := mkServeReq {
  sUser : option string;
  sSlug : string;
  sPage : option Page;
  sBestPage : option Page;
  sRemainder : string;
  sAncestors : option (list Page);
  sChildren : option Descendants;
  sLoginRequired : bool;
  sInsufficient : bool;
  sEdit : bool;
  sType : option string;
  sExtras : list (string * option Page)
}.

(** What [main] settles before it renders. *)
Record Selection := mkSelection {
  selType : string;
  selStatus : Z;
  selPage : option Page
}.

Inductive Served :=
| Rendered (sel : Selection)
| Redirected (to : string).

(** An entry of [options.load]: a slug, or a function of the request. *)
Inductive Loader :=
| LoadSlug (item : string)
| LoadFn (f : ServeReq → option string * ServeReq).

Record ServeOptions := mkServeOptions {
  oRoot : string;
  oDepth : option Z;
  oLoad : list Loader;
  oNotfound : option (ServeReq → option string * ServeReq)
}.

Definition withFlags (req : ServeReq) (login insufficient : bool) : ServeReq :=
  mkServeReq (sUser req) (sSlug req) (sPage req) (sBestPage req) (sRemainder req)
             (sAncestors req) (sChildren req) login insufficient (sEdit req)
             (sType req) (sExtras req).

Definition withEdit (req : ServeReq) (e : bool) : ServeReq :=
  mkServeReq (sUser req) (sSlug req) (sPage req) (sBestPage req) (sRemainder req)
             (sAncestors req) (sChildren req) (sLoginRequired req) (sInsufficient req) e
             (sType req) (sExtras req).

Definition withRelatives (req : ServeReq) (a : option (list Page)) (c : Descendants) : ServeReq :=
  mkServeReq (sUser req) (sSlug req) (sPage req) (sBestPage req) (sRemainder req)
             a (Some c) (sLoginRequired req) (sInsufficient req) (sEdit req)
             (sType req) (sExtras req).

Definition withExtra (req : ServeReq) (k : string) (p : option Page) : ServeReq :=
  mkServeReq (sUser req) (sSlug req) (sPage req) (sBestPage req) (sRemainder req)
             (sAncestors req) (sChildren req) (sLoginRequired req) (sInsufficient req)
             (sEdit req) (sType req) ((k, p) :: sExtras req).

Definition pageStep (o : ServeOptions) (st : Store) (u : option string) (param : string) : ServeReq :=
  let slug' := if String.prefix "/" param then param else "/" +:+ param in
  let '(page, bestPage, remainder) := getPage st slug' in
  let setUrl := λ p : Page, withUrl (oRoot o +:+ slug p) p in
  mkServeReq u slug' (setUrl <$> page) (setUrl <$> bestPage) remainder
             None None false false false None [].

Definition checkView (req : ServeReq) : ServeReq :=
  match permissions (sUser req) "view-page" (sBestPage req) with
  | Some _ =>
      match sUser req with
      | Some _ => withFlags req (sLoginRequired req) true
      | None => withFlags req true (sInsufficient req)
      end
  | None => req
  end.

Definition checkEdit (req : ServeReq) : ServeReq :=
  withEdit req (bool_decide (permissions (sUser req) "edit-page" (sBestPage req) = None)).

Definition permissionsStep (req : ServeReq) : ServeReq :=
  match sBestPage req with
  | None => req
  | Some _ => checkEdit (checkView req)
  end.

Definition relativesStep (o : ServeOptions) (st : Store) (req : ServeReq) : ServeReq :=
  match sBestPage req with
  | None => req
  | Some best =>
      withRelatives req (getAncestors (oRoot o) st best)
                    (getDescendants (oRoot o) st best (default 1%Z (oDepth o)))
  end.

(** The loaders in array order; the first error ends the step. *)
Fixpoint loadStep (st : Store) (load : list Loader) (req : ServeReq) : option string * ServeReq :=
  match load with
  | [] => (None, req)
  | LoadSlug item :: rest => loadStep st rest (withExtra req item (getPage st item).1.1)
  | LoadFn f :: rest =>
      match f req with
      | (None, req') => loadStep st rest req'
      | (Some e, req') => (Some e, req')
      end
  end.

Definition registered (n : string) : bool :=
  existsb (λ t, String.eqb (name t) n) types.

Definition truthy (t : option string) : bool :=
  match t with
  | Some s => negb (String.eqb s "")
  | None => false
  end.

(** [main] up to the choice of the template: the type that is rendered,
    the status code and the page handed to the template. *)
Definition main (req : ServeReq) (err : option string) : Selection :=
  let '(type', status, providePage) :=
    if negb (truthy (sType req)) then
      match err with
      | Some _ => (Some "serverError", 500%Z, false)
      | None =>
          if sLoginRequired req then (Some "loginRequired", 200%Z, false)
          else if sInsufficient req then (Some "insufficient", 200%Z, false)
          else match sPage req with
               | Some page =>
                   (Some (if registered (type page) then type page
                          else "default"), 200%Z, true)
               | None => (Some "notfound", 404%Z, false)
               end
      end
    else (sType req, 200%Z, true) in
  mkSelection (default "default" type') status
              (if providePage then sPage req else None).

Definition serve (o : ServeOptions) (w : World) (u : option string) (param : string) : Served :=
  let req := pageStep o (pages w) u param in
  let req := permissionsStep req in
  let req := relativesStep o (pages w) req in
  match loadStep (pages w) (oLoad o) req with
  | (Some e, req) => Rendered (main req (Some e))
  | (None, req) =>
      match sPage req with
      | Some _ => Rendered (main req None)
      | None =>
          match oNotfound o with
          | Some handler =>
              let '(e, req) := handler req in Rendered (main req e)
          | None =>
              match redirects w !! sSlug req with
              | Some to => Redirected (oRoot o +:+ to)
              | None => Rendered (main req None)
              end
          end
      end
  end.

End Routes.

(** ** The registry of page types and groups *)

(** What a group can hand down to the types that name it, as far as
    the module reads it: a [group] property and [settings.sanitize]. *)
Record Group := mkGroup {
  gGroup : option string;
  gSanitize : option (string → Sanitized)
}.

(** [aposPages.groups] and [aposPages.types].  A group name can be
    bound to [undefined], which is [None]. *)
Record Registry := mkRegistry {
  regGroups : gmap string (option Group);
  regTypes : list PageType
}.

(** [aposPages.groups] is created as an array, so the assignment
    [groups[name] = group] under the name "length" sets the length of
    the array, which throws for a value that is no number; that name is
    therefore never bound.  (The name "__proto__" is outside the
    model.) *)
Definition addGroup (name' : string) (group' : option Group) (r : Registry) : Result Registry :=
  if String.eqb name' "length" then Thrown "RangeError"
  else Ok (mkRegistry (<[name' := group']> (regGroups r)) (regTypes r)).

(** One property under [extend]: a defined value of the source
    replaces the value of the target. *)
Definition extendProp {A} (target source : option A) : option A :=
  match source with
  | Some _ => source
  | None => target
  end.

(** [addType]: the object starts as [{ group: typeArg.group }], is
    extended by the group found under that name (the name reads
    "undefined" when the type has none) and then by the type itself. *)
Definition addType (typeArg : PageType) (r : Registry) : Registry :=
  let group0 := group typeArg in
  let found := mjoin (regGroups r !! default "undefined" group0) in
  let group1 := extendProp group0 (found ≫= gGroup) in
  let sanitize1 := found ≫= gSanitize in
  let type' :=
    mkType (name typeArg) (extendProp group1 (group typeArg))
           (extendProp sanitize1 (sanitize typeArg)) in
  mkRegistry (regGroups r) (regTypes r ++ [type']).

(** The [_.each] over [options.groups]: the callback hands each element
    to [addGroup] as its only argument, so the element is the name and
    the group is [undefined]. *)
Fixpoint eachGroup (groups : list string) (r : Registry) : Result Registry :=
  match groups with
  | [] => Ok r
  | group' :: rest =>
      match addGroup group' None r with
      | Ok r' => eachGroup rest r'
      | Err e => Err e
      | Thrown e => Thrown e
      end
  end.

(** The set-up at the end of the constructor.  [optGroups] lists the
    elements of [options.groups] as the property names they are used
    as. *)
Definition construct (optTypes : option (list PageType)) (optGroups : option (list string))
    : Result Registry :=
  let types := default [mkType "default" None None] optTypes in
  match eachGroup (default [] optGroups) (mkRegistry ∅ []) with
  | Ok r => Ok (foldl (λ r type', addType type' r) r types)
  | Err e => Err e
  | Thrown e => Thrown e
  end.

(** ** Sample data *)

(** A stand-in for [apos.slugify] on ASCII text: upper case letters are
    lowered, letters, digits and allowed characters are kept, every other
    character becomes a dash. *)
Definition slugChar (allowed : string) (a : ascii) : ascii :=
  let n := Ascii.nat_of_ascii a in
  if (65 <=? n)%nat && (n <=? 90)%nat then Ascii.ascii_of_nat (n + 32)
  else if ((97 <=? n)%nat && (n <=? 122)%nat) || ((48 <=? n)%nat && (n <=? 57)%nat)
          || Str.has a allowed
       then a else "-"%char.

Fixpoint mapChars (f : ascii → ascii) (s : string) : string :=
  match s with
  | EmptyString => EmptyString
  | String a r => String (f a) (mapChars f r)
  end.

Definition sampleSlugify (s : string) (allowed : option string) : string :=
  mapChars (slugChar (default "" allowed)) s.

Definition allowAll (u : option string) (action : string) (subject : option Page) : option string :=
  None.

(** Nobody may add a page below the home page; a request about no
    particular page is let through. *)
Definition guardHome (u : option string) (action : string) (subject : option Page) : option string :=
  match subject with
  | Some p => if String.eqb action "add-page" && String.eqb (slug p) "/"
              then Some "Forbidden" else None
  | None => None
  end.

(** Only signed-in users may view pages. *)
Definition membersOnly (u : option string) (action : string) (subject : option Page) : option string :=
  match u with
  | Some _ => None
  | None => if String.eqb action "view-page" then Some "Forbidden" else None
  end.

Definition sampleTypes : list PageType := [mkType "default" None None].

Definition samplePage (t s p : string) (l r : Z) : Page :=
  mkPage t s p l r "default" "{}" [] None.

Definition home : Page := samplePage "Home" "/" "home" 0 0.
Definition about : Page := samplePage "About" "/about" "home/about" 1 1.
Definition contact : Page := samplePage "Contact" "/contact" "home/contact" 1 2.
Definition team : Page := samplePage "Team" "/about/team" "home/about/team" 2 1.

Definition sampleStore : Store := [home; about; contact; team].
Definition sampleWorld : World := mkWorld sampleStore ∅.

Definition deleteRequest (s : string) : Request :=
  mkRequest None (mkBody "" "" "" s "" []).

Definition editRequest (original slug' title' type' : string) : Request :=
  mkRequest None (mkBody title' type' "" slug' original []).

Definition newRequest (parent title' type' : string) : Request :=
  mkRequest None (mkBody title' type' parent "" "" []).

(** ** Vocabulary of the statements *)


(** [a] is the path of an ancestor of the page at path [s]: [s] goes on
    after [a] with a slash. *)
Definition isAncestorPath (a s : string) : Prop := ∃ r, s = a +:+ "/" +:+ r.

(** Levels grow along the tree: a page lies deeper than every stored
    page whose path is an ancestor path of its own. *)
Definition levelsFollowPaths (st : Store) : Prop :=
  Forall (λ p, Forall (λ q, String.prefix (path q +:+ "/") (path p) = true →
                            (level q < level p)%Z) st) st.

(** The last segment of a slash separated address. *)
Definition lastSegment (s : string) : string :=
  Str.drop (Z.to_nat (Str.lastIndexOf Str.slash s + 1)) s.

(** Invariant (a) of the data model for one page: its path is the path
    of some stored page, a slash, and the last segment of its own slug. *)
Definition pathTracksSlug (st : Store) (p : Page) : bool :=
  existsb (λ parent, String.eqb (path p) (path parent +:+ "/" +:+ lastSegment (slug p))) st.

(** What holds of the [_.each] of [getDescendants] once it has seen the
    objects [l]: the map knows exactly the paths seen, a child sits in
    the [children] of an object seen no later that has the path of its
    parent, an object is at the top when nothing seen so far had that
    path, each object is placed once, and every array is in the order
    of the query. *)
Record nestInv (l : list Page) (s : NestState) : Prop := mkNestInv {
  inv_length : length (nestKids s) = length l;
  inv_byPath : ∀ (k : string) (j : nat), pagesByPath s !! k = Some j →
                      ∃ p, l !! j = Some p ∧ path p = k;
  inv_known : ∀ (j : nat) p, l !! j = Some p → is_Some (pagesByPath s !! path p);
  inv_kids : ∀ (j : nat) (c : list nat) (i : nat), nestKids s !! j = Some c → i ∈ c →
                      (j ≤ i)%nat ∧ ∃ pj pi, l !! j = Some pj ∧ l !! i = Some pi ∧
                                       path pj = parentPath (path pi);
  inv_top : ∀ i : nat, i ∈ nestTop s →
                 ∃ pi, l !! i = Some pi ∧
                       ∀ (j : nat) pj, (j ≤ i)%nat → l !! j = Some pj →
                               path pj ≠ parentPath (path pi);
  inv_perm : nestTop s ++ concat (nestKids s) ≡ₚ seq 0 (length l);
  inv_top_sorted : StronglySorted lt (nestTop s);
  inv_kids_sorted : Forall (StronglySorted lt) (nestKids s)
}.

(** The ancestor paths of a path by their definition: what stands
    before each of its slashes, shortest first; [acc] is the part of the
    path that has been read. *)
Fixpoint boundaries (acc s : string) : list string :=
  match s with
  | EmptyString => []
  | String a r =>
      if Ascii.eqb a Str.slash then acc :: boundaries (acc +:+ String a "") r
      else boundaries (acc +:+ String a "") r
  end.

(** What the cascade of a rename is to do to one page: a slug that
    goes on after the original slug and a slash has that beginning
    replaced by the new slug and a slash. *)
Definition rewriteSlug (originalSlug slug' : string) (p : Page) : Page :=
  if String.prefix (originalSlug +:+ "/") (slug p)
  then withSlug (slug' +:+ "/" +:+ Str.drop (String.length originalSlug + 1) (slug p)) p
  else p.


(** The title the new route gives to the page of a request. *)
Definition newTitle (req : Request) : string :=
  let title := Str.trim (bTitle (body req)) in
  if String.eqb title "" then "New Page" else title.


(** A string ends with the character [c]. *)
Fixpoint endsWith (c : ascii) (s : string) : bool :=
  match s with
  | EmptyString => false
  | String a EmptyString => Ascii.eqb a c
  | String _ r => endsWith c r
  end.

(** The character [c] occurs twice in a row. *)
Fixpoint hasDouble (c : ascii) (s : string) : bool :=
  match s with
  | String a r =>
      match r with
      | String b _ => (Ascii.eqb a c && Ascii.eqb b c) || hasDouble c r
      | EmptyString => false
      end
  | EmptyString => false
  end.

(** A slug in normal form: anchored at the root, no doubled and no
    trailing slash. *)
Definition normalSlug (s : string) : Prop :=
  String.prefix "/" s = true ∧ hasDouble Str.slash s = false ∧
  endsWith Str.slash s = false.

(** The request as the steps after [load] see it when every loader is
    a slug: the pages found under the slugs are added to the extras. *)
Definition loadSlugs (st : Store) (items : list string) (req : ServeReq) : ServeReq :=
  foldl (λ r item, withExtra r item (getPage st item).1.1) req items.

(** The address [serve] looks up for a route parameter. *)
Definition requestSlug (param : string) : string :=
  if String.prefix "/" param then param else "/" +:+ param.

(** The text is ASCII: every character lies below 128.  On such text
    [Str.trim] strips what [String.prototype.trim] strips, which beyond
    ASCII also takes white space such as U+00A0. *)
Fixpoint asciiOnly (s : string) : bool :=
  match s with
  | EmptyString => true
  | String a r => (Ascii.nat_of_ascii a <? 128)%nat && asciiOnly r
  end.


(** * Properties *)

(** ** Strings *)

Local Arguments String.append !_ _ / : simpl nomatch.

Lemma ascii_eqb_true a b : Ascii.eqb a b = true ↔ a = b.
Proof. apply Ascii.eqb_eq. Qed.

Lemma str_app_nil_r s : s +:+ "" = s.
Proof. induction s; simpl; congruence. Qed.

Lemma str_app_assoc a b c : (a +:+ b) +:+ c = a +:+ (b +:+ c).
Proof. induction a; simpl; congruence. Qed.

Lemma str_app_length a b :
  String.length (a +:+ b) = (String.length a + String.length b)%nat.
Proof. induction a; simpl; congruence. Qed.

Lemma str_prefix_iff p s : String.prefix p s = true ↔ ∃ r, s = p +:+ r.
Proof.
  revert s. induction p as [|a p IH]; intros s.
  - destruct s; simpl; split; eauto.
  - destruct s as [|b s]; simpl.
    + split; [discriminate|]. intros [r Hr]. discriminate.
    + destruct (Ascii.ascii_dec a b) as [->|Hne].
      * rewrite IH. split; intros [r Hr]; exists r; congruence.
      * split; [discriminate|]. intros [r Hr]. congruence.
Qed.

Lemma str_drop_app p r : Str.drop (String.length p) (p +:+ r) = r.
Proof. induction p; simpl; auto. Qed.

(** ** The slug of an edit never comes out as the root address *)

Lemma stripTrailing_root t : Str.stripTrailing t = "/" → t = "//".
Proof.
  destruct t as [|a [|b r]]; simpl; try discriminate.
  - destruct (Ascii.eqb a Str.slash) eqn:E; [discriminate|].
    intros H. injection H as ->. discriminate E.
  - intros H. injection H as -> H.
    destruct r as [|c r]; simpl in H.
    + destruct (Ascii.eqb b Str.slash) eqn:E; [|discriminate].
      apply ascii_eqb_true in E. by subst.
    + discriminate.
Qed.

Lemma collapse_not_double s : Str.collapse s ≠ "//".
Proof.
  induction s as [|a s IH]; simpl; [discriminate|].
  destruct (Ascii.eqb a Str.slash) eqn:Ea.
  - destruct s as [|b r]; [discriminate|].
    destruct (Ascii.eqb b Str.slash) eqn:Eb; [exact IH|].
    simpl. rewrite Eb. intros H. injection H as _ H _.
    subst b. discriminate Eb.
  - intros H. injection H as H _. subst. discriminate.
Qed.

Lemma normalizeSlug_not_root slugify raw : normalizeSlug slugify raw ≠ "/".
Proof.
  unfold normalizeSlug. intros H%stripTrailing_root.
  by apply collapse_not_double in H.
Qed.

Lemma edit_home_always_fails slugify permissions types w req :
  bOriginalSlug (body req) = "/" →
  ∀ page, (editHandler slugify permissions types w req).1 ≠ Ok page.
Proof.
  intros Horig page. unfold editHandler. rewrite Horig.
  destruct (getPage (pages w) "/").1.1 as [pg|]; [|discriminate].
  destruct (permissions _ _ _); [discriminate|].
  destruct (determineType types req); [|discriminate].
  destruct (String.eqb_spec (normalizeSlug slugify (bSlug (body req))) "/") as [H|_].
  - by apply normalizeSlug_not_root in H.
  - simpl. discriminate.
Qed.

(** C4.  The slug submitted to the edit route gets a leading slash, has
    its runs of slashes collapsed and loses one trailing slash; nothing
    keeps the root apart, so the normalized slug is never the root
    address, the input "/" comes out empty, and an edit of the home page
    that leaves its slug alone is refused as a change of slug. *)
Theorem edit_root_slug_is_emptied :
  (∀ slugify raw, normalizeSlug slugify raw ≠ "/") ∧
  normalizeSlug sampleSlugify "/" = "" ∧
  normalizeSlug sampleSlugify "about//team/" = "/about/team" ∧
  editHandler sampleSlugify allowAll sampleTypes sampleWorld
              (editRequest "/" "/" "Home" "default")
  = (Err "Cannot change the slug of the home page", sampleWorld).
Proof.
  split; [apply normalizeSlug_not_root|]. by vm_compute.
Qed.

(** ** The permission check of the delete route *)

Lemma deleteHandler_permission_subject permissions st req page e :
  (getPage st (bSlug (body req))).1.1 = Some page →
  permissions (user req) "add-page" None = Some e →
  deleteHandler permissions st req = (Err e, st).
Proof. intros Hp He. unfold deleteHandler. by rewrite Hp, He. Qed.

(** C2.  The delete route asks for the add-page permission before it
    has looked the parent up, so the subject of the check is undefined:
    a policy that forbids adding pages below the home page does not stop
    the removal of a child of the home page. *)
Theorem delete_permission_skips_parent :
  getAncestors "" sampleStore contact = Some [withUrl "/" home] ∧
  guardHome None "add-page" (Some home) = Some "Forbidden" ∧
  deleteHandler guardHome sampleStore (deleteRequest "/contact")
  = (Ok "/", [home; about; team]).
Proof. by vm_compute. Qed.

(** ** Outcome selection of serve *)

(** C9.  [main] respects a type set by a load step; otherwise an error
    of the earlier steps selects the server error with status 500, then
    a refusal to an anonymous visitor the login page, then a refusal to
    a signed-in user the insufficient page, then the page under its own
    type when that type is registered and under the default type when
    it is not, and last the not-found page with status 404.  The two
    refusal flags are set by the view check on the best page. *)
Theorem main_priority permissions types (req : ServeReq) (err : option string) :
  let sel := main types req err in
  (truthy (sType req) = true → Some (selType sel) = sType req) ∧
  (truthy (sType req) = false →
     (is_Some err → selType sel = "serverError" ∧ selStatus sel = 500%Z) ∧
     (err = None → sLoginRequired req = true → selType sel = "loginRequired") ∧
     (err = None → sLoginRequired req = false → sInsufficient req = true →
        selType sel = "insufficient") ∧
     (err = None → sLoginRequired req = false → sInsufficient req = false →
        ∀ page, sPage req = Some page →
          selType sel = (if registered types (type page) then type page else "default") ∧
          selStatus sel = 200%Z ∧ selPage sel = Some page) ∧
     (err = None → sLoginRequired req = false → sInsufficient req = false →
        sPage req = None → selType sel = "notfound" ∧ selStatus sel = 404%Z)) ∧
  (∀ best e, sBestPage req = Some best →
     permissions (sUser req) "view-page" (Some best) = Some e →
     (sUser req = None → sLoginRequired (permissionsStep permissions req) = true) ∧
     (is_Some (sUser req) → sInsufficient (permissionsStep permissions req) = true)) ∧
  (∀ best, sBestPage req = Some best →
     permissions (sUser req) "view-page" (Some best) = None →
     sLoginRequired (permissionsStep permissions req) = sLoginRequired req ∧
     sInsufficient (permissionsStep permissions req) = sInsufficient req).
Proof.
  cbv zeta. split; [|split; [|split]].
  - unfold main. intros Ht. rewrite Ht. simpl.
    destruct (sType req); [done|discriminate].
  - unfold main. intros Ht. rewrite Ht. simpl. split_and!.
    + by intros [e ->].
    + by intros -> ->.
    + by intros -> -> ->.
    + by intros -> -> -> page ->.
    + by intros -> -> -> ->.
  - intros best e Hb He. unfold permissionsStep, checkEdit, checkView.
    rewrite Hb, He. split.
    + by intros ->.
    + by intros [u ->].
  - intros best Hb He. unfold permissionsStep, checkEdit, checkView.
    by rewrite Hb, He.
Qed.

Lemma main_priority_witness :
  selType (main sampleTypes
                (permissionsStep guardHome
                   (pageStep (mkServeOptions "" None [] None) sampleStore None "/about"))
                None) = "default".
Proof.
  pose proof (main_priority guardHome sampleTypes
                (permissionsStep guardHome
                   (pageStep (mkServeOptions "" None [] None) sampleStore None "/about"))
                None) as (_ & H & _).
  destruct (H eq_refl) as (_ & _ & _ & Hp & _).
  exact (proj1 (Hp eq_refl eq_refl eq_refl _ eq_refl)).
Defined.

(** ** Unregistered type names *)


Lemma putPage_stores s page st st' : putPage s page st = Ok st' → page ∈ st'.
Proof.
  unfold putPage. destruct (list_find _ st) as [[i p]|] eqn:Hf.
  - destruct (keysFree _ _); [|discriminate]. intros [= <-].
    apply list_find_Some in Hf as (Hi & _).
    apply list_elem_of_lookup. exists i.
    apply list_lookup_insert_eq. by eapply lookup_lt_Some.
  - destruct (keysFree _ _); [|discriminate]. intros [= <-].
    apply elem_of_app. right. by left.
Qed.

Lemma addSanitizedTypeData_type req page ty page' :
  addSanitizedTypeData req page ty = Ok page' →
  type page' = type page ∧ slug page' = slug page ∧ path page' = path page ∧
  level page' = level page ∧ rank page' = rank page.
Proof.
  unfold addSanitizedTypeData. destruct (sanitize ty) as [f|].
  - destruct (f _); [|discriminate]. by intros [= <-].
  - by intros [= <-].
Qed.

(** ** The nesting pass of getDescendants *)

Lemma concat_alter_snoc (ks : list (list nat)) j x :
  j < length ks → concat (alter (λ c, c ++ [x]) j ks) ≡ₚ concat ks ++ [x].
Proof.
  revert j. induction ks as [|k ks IH]; intros j Hj; simpl in *; [lia|].
  destruct j as [|j]; simpl.
  - rewrite <- !(assoc_L (++)). apply Permutation_app_head.
    apply Permutation_app_comm.
  - rewrite <- (assoc_L (++)). apply Permutation_app_head.
    apply (IH j). lia.
Qed.

Lemma nestInv_init : nestInv [] (mkNest ∅ [] []).
Proof.
  split; simpl; try done.
  - intros i H. by apply elem_of_nil in H.
  - constructor.
Qed.

Lemma nestInv_step l s p : nestInv l s → nestInv (l ++ [p]) (nestStep s p).
Proof.
  intros [Hlen Hby Hknown Hkids Htop Hperm Hts Hks].
  assert (Hby' : ∀ k j, <[path p := length (nestKids s)]> (pagesByPath s) !! k = Some j →
                        ∃ q, (l ++ [p]) !! j = Some q ∧ path q = k).
  { intros k j. rewrite lookup_insert_Some. intros [[<- <-]|[Hne Hj]].
    - exists p. split; [|done]. rewrite Hlen. apply list_lookup_middle. done.
    - destruct (Hby _ _ Hj) as (q & Hq & <-). exists q. split; [|done].
      by apply lookup_app_l_Some. }
  assert (Hknown' : ∀ j q, (l ++ [p]) !! j = Some q →
                           is_Some (<[path p := length (nestKids s)]> (pagesByPath s) !! path q)).
  { intros j q. rewrite lookup_snoc_Some. intros [[_ Hq]|[_ <-]].
    - rewrite lookup_insert_is_Some. destruct (decide (path p = path q)); [by left|].
      right. split; [done|]. by eapply Hknown.
    - rewrite lookup_insert_is_Some. by left. }
  assert (Hlt : ∀ i, i ∈ nestTop s → i < length l).
  { intros i Hi. destruct (Htop _ Hi) as (pi & Hpi & _). by eapply lookup_lt_Some. }
  assert (Hklt : ∀ j c i, nestKids s !! j = Some c → i ∈ c → i < length l).
  { intros j c i Hc Hi. destruct (Hkids _ _ _ Hc Hi) as (_ & pj & pi & _ & Hpi & _).
    by eapply lookup_lt_Some. }
  unfold nestStep.
  destruct (<[path p := length (nestKids s)]> (pagesByPath s) !! parentPath (path p))
    as [j|] eqn:Hlook.
  - destruct (Hby' _ _ Hlook) as (pj & Hpj & Hpath).
    assert (Hjlt : j < S (length l)).
    { apply lookup_lt_Some in Hpj. rewrite length_app in Hpj. simpl in Hpj. lia. }
    split; simpl.
    + rewrite length_alter, !length_app. simpl. lia.
    + exact Hby'.
    + exact Hknown'.
    + intros j' c i. rewrite list_lookup_alter.
      destruct (decide (j = j')) as [<-|Hne].
      * destruct ((nestKids s ++ [[]]) !! j) as [c0|] eqn:Hc0; [|done].
        simpl. intros [= <-]. rewrite elem_of_app, list_elem_of_singleton.
        intros [Hi| ->].
        -- apply lookup_snoc_Some in Hc0 as [[_ Hc0]|[_ <-]];
             [|by apply elem_of_nil in Hi].
           destruct (Hkids _ _ _ Hc0 Hi) as (Hle & qj & qi & Hqj & Hqi & Hq).
           split; [done|]. exists qj, qi. split_and!; try done;
             by apply lookup_app_l_Some.
        -- split; [lia|]. exists pj, p. split_and!; try done.
           rewrite Hlen. by apply list_lookup_middle.
      * intros Hc Hi. apply lookup_snoc_Some in Hc as [[_ Hc]|[_ <-]];
          [|by apply elem_of_nil in Hi].
        destruct (Hkids _ _ _ Hc Hi) as (Hle & qj & qi & Hqj & Hqi & Hq).
        split; [done|]. exists qj, qi. split_and!; try done;
          by apply lookup_app_l_Some.
    + intros i Hi. destruct (Htop _ Hi) as (pi & Hpi & Hno).
      exists pi. split; [by apply lookup_app_l_Some|].
      intros j' pj' Hle Hj'. apply (Hno j' pj' Hle).
      rewrite lookup_app_l in Hj'; [done|]. apply lookup_lt_Some in Hpi. lia.
    + rewrite concat_alter_snoc by (rewrite length_app; simpl; lia).
      rewrite concat_app. simpl. rewrite (right_id_L [] (++)).
      rewrite length_app. simpl. rewrite Nat.add_1_r, seq_S. simpl.
      rewrite (assoc_L (++)). by rewrite Hperm, Hlen.
    + exact Hts.
    + apply Forall_alter.
      * apply Forall_app. split; [done|]. repeat constructor.
      * intros c Hc Hsorted. apply StronglySorted_app_2; [|done|repeat constructor].
        intros x y Hx ->%list_elem_of_singleton.
        apply lookup_snoc_Some in Hc as [[_ Hc]|[_ <-]]; [|by apply elem_of_nil in Hx].
        rewrite Hlen. by eapply Hklt.
  - split; simpl.
    + rewrite !length_app. simpl. lia.
    + exact Hby'.
    + exact Hknown'.
    + intros j c i Hc Hi. apply lookup_snoc_Some in Hc as [[_ Hc]|[_ <-]];
        [|by apply elem_of_nil in Hi].
      destruct (Hkids _ _ _ Hc Hi) as (Hle & qj & qi & Hqj & Hqi & Hq).
      split; [done|]. exists qj, qi. split_and!; try done;
        by apply lookup_app_l_Some.
    + intros i. rewrite elem_of_app, list_elem_of_singleton. intros [Hi| ->].
      * destruct (Htop _ Hi) as (pi & Hpi & Hno).
        exists pi. split; [by apply lookup_app_l_Some|].
        intros j' pj' Hle Hj'. apply (Hno j' pj' Hle).
        rewrite lookup_app_l in Hj'; [done|]. apply lookup_lt_Some in Hpi. lia.
      * exists p. split; [rewrite Hlen; by apply list_lookup_middle|].
        intros j pj _ Hpj Hpath. destruct (Hknown' _ _ Hpj) as [x Hx].
        rewrite Hpath in Hx. congruence.
    + rewrite concat_app. simpl. rewrite (right_id_L [] (++)).
      rewrite length_app. simpl. rewrite Nat.add_1_r, seq_S. simpl.
      rewrite <- Hperm, Hlen.
      rewrite <- !(assoc_L (++)). apply Permutation_app_head, Permutation_app_comm.
    + apply StronglySorted_app_2; [|done|repeat constructor].
      intros x y Hx ->%list_elem_of_singleton. rewrite Hlen. by apply Hlt.
    + apply Forall_app. split; [done|]. repeat constructor.
Qed.

Lemma nestInv_run l : nestInv l (foldl nestStep (mkNest ∅ [] []) l).
Proof.
  induction l as [|p l IH] using rev_ind; [apply nestInv_init|].
  rewrite foldl_snoc. by apply nestInv_step.
Qed.

(** ** The last slash of a path *)

Lemma has_app c a b : Str.has c (a +:+ b) = Str.has c a || Str.has c b.
Proof. induction a as [|x a IH]; simpl; [done|]. by destruct (Ascii.eqb x c). Qed.

Lemma has_cons_same c r : Str.has c (String c r) = true.
Proof. simpl. by rewrite Ascii.eqb_refl. Qed.

Lemma lastIndexOf_spec c s :
  (Str.lastIndexOf c s = (-1)%Z ∧ Str.has c s = false) ∨
  (∃ a r, s = a +:+ String c r ∧ Str.has c r = false ∧
          Str.lastIndexOf c s = Z.of_nat (String.length a)).
Proof.
  induction s as [|x s IH]; simpl; [by left|].
  destruct IH as [[-> Hno]|(a & r & -> & Hno & ->)].
  - simpl. destruct (Ascii.eqb x c) eqn:E.
    + apply ascii_eqb_true in E as ->. right. exists "", s. by simpl.
    + by left.
  - right. exists (String x a), r. split_and!; [done..|].
    destruct (0 <=? Z.of_nat (String.length a))%Z eqn:E; simpl; lia.
Qed.

Lemma lastIndexOf_app_last c a r :
  Str.has c r = false →
  Str.lastIndexOf c (a +:+ String c r) = Z.of_nat (String.length a).
Proof.
  intros Hno. destruct (lastIndexOf_spec c (a +:+ String c r))
    as [[_ H]|(a' & r' & Heq & Hno' & ->)].
  - rewrite has_app, has_cons_same in H. by destruct (Str.has c a).
  - f_equal. revert a' Heq. induction a as [|x a IH]; intros [|y a'] Heq;
      simpl in *; [done| | |].
    + injection Heq as _ Hr. rewrite Hr, has_app, has_cons_same in Hno.
      by destruct (Str.has c a').
    + injection Heq as _ Hr. rewrite <- Hr, has_app, has_cons_same in Hno'.
      by destruct (Str.has c a).
    + injection Heq as _ Hr. f_equal. by apply IH.
Qed.

Lemma lastIndexOf_app_ge c a r :
  (Z.of_nat (String.length a) ≤ Str.lastIndexOf c (a +:+ String c r))%Z.
Proof.
  induction a as [|x a IH]; simpl.
  - destruct (0 <=? Str.lastIndexOf c r)%Z eqn:E; [lia|].
    by rewrite Ascii.eqb_refl.
  - destruct (0 <=? Str.lastIndexOf c (a +:+ String c r))%Z eqn:E; lia.
Qed.

Lemma substring_app a r : String.substring 0 (String.length a) (a +:+ r) = a.
Proof. induction a as [|x a IH]; simpl; [by destruct r|]. by rewrite IH. Qed.

Lemma substring_length n s : (String.length (String.substring 0 n s) ≤ n)%nat.
Proof.
  revert s. induction n as [|n IH]; intros [|x s]; simpl; try lia.
  specialize (IH s). lia.
Qed.

Lemma parentPath_app pp seg :
  Str.has Str.slash seg = false → parentPath (pp +:+ "/" +:+ seg) = pp.
Proof.
  intros Hno. unfold parentPath, Str.substr0. simpl.
  rewrite lastIndexOf_app_last by done. rewrite Nat2Z.id. apply substring_app.
Qed.

Lemma parentPath_spec s :
  Str.has Str.slash s = true →
  ∃ r, s = parentPath s +:+ "/" +:+ r ∧ Str.has Str.slash r = false.
Proof.
  intros Hhas. destruct (lastIndexOf_spec Str.slash s)
    as [[_ H]|(a & r & -> & Hno & _)]; [congruence|].
  exists r. split; [|done].
  change (a +:+ String Str.slash r) with (a +:+ "/" +:+ r).
  by rewrite (parentPath_app a r).
Qed.

Lemma parentPath_shorter s :
  s ≠ "" → (String.length (parentPath s) < String.length s)%nat.
Proof.
  intros Hne. destruct (Str.has Str.slash s) eqn:Hhas.
  - destruct (parentPath_spec s Hhas) as (r & Heq & _).
    rewrite Heq at 2. rewrite str_app_length. simpl. lia.
  - destruct (lastIndexOf_spec Str.slash s) as [[Hk _]|(a & r & -> & _ & _)].
    + unfold parentPath, Str.substr0. rewrite Hk. simpl.
      destruct s; [done|]. simpl. lia.
    + rewrite has_app, has_cons_same in Hhas. by destruct (Str.has _ a).
Qed.

Lemma isAncestorPath_has a s : isAncestorPath a s → Str.has Str.slash s = true.
Proof.
  intros [r ->]. rewrite has_app. simpl. by rewrite orb_true_r.
Qed.

Lemma isAncestorPath_prefix a s :
  isAncestorPath a s ↔ String.prefix (a +:+ "/") s = true.
Proof.
  rewrite str_prefix_iff. unfold isAncestorPath.
  split; intros [r ->]; exists r; by rewrite str_app_assoc.
Qed.

Lemma isAncestorPath_parent s :
  Str.has Str.slash s = true → isAncestorPath (parentPath s) s.
Proof. intros H. destruct (parentPath_spec s H) as (r & Heq & _). by exists r. Qed.

Lemma isAncestorPath_length a s :
  isAncestorPath a s → (String.length a ≤ String.length (parentPath s))%nat.
Proof.
  intros Ha. pose proof (isAncestorPath_has _ _ Ha) as Hhas.
  destruct Ha as [r Heq].
  destruct (lastIndexOf_spec Str.slash s) as [[_ H]|(b & t & Hs & Hno & Hk)];
    [congruence|].
  assert (Hp : parentPath s = b) by (rewrite Hs; by apply (parentPath_app b t)).
  rewrite Hp. pose proof (lastIndexOf_app_ge Str.slash a r) as Hge.
  change (a +:+ String Str.slash r) with (a +:+ "/" +:+ r) in Hge.
  rewrite <- Heq, Hk in Hge. lia.
Qed.

(** ** The two sort orders *)

Lemma levelRankLe_total : Total levelRankLe.
Proof. intros p q. unfold levelRankLe. lia. Qed.

Lemma levelRankLe_trans : Transitive levelRankLe.
Proof. intros p q r. unfold levelRankLe. lia. Qed.

Lemma pathLe_total : Total pathLe.
Proof. intros p q. unfold pathLe. apply (total String.le). Qed.

Lemma pathLe_trans : Transitive pathLe.
Proof. intros p q r. unfold pathLe. apply (transitivity (R := String.le)). Qed.

Lemma StronglySorted_lookup_lt {A} (R : relation A) l i j x y :
  StronglySorted R l → l !! i = Some x → l !! j = Some y → i < j → R x y.
Proof.
  intros Hs. revert i j. induction Hs as [|a l Hs IH Hall]; intros i j Hi Hj Hlt.
  - by rewrite lookup_nil in Hi.
  - destruct j as [|j]; [lia|]. destruct i as [|i]; simpl in *.
    + simplify_eq. rewrite Forall_forall in Hall. apply Hall.
      by eapply list_elem_of_lookup_2.
    + eapply IH; eauto. lia.
Qed.

Lemma levelsFollowPaths_lt st p q :
  levelsFollowPaths st → p ∈ st → q ∈ st →
  isAncestorPath (path q) (path p) → (level q < level p)%Z.
Proof.
  unfold levelsFollowPaths. rewrite Forall_forall. intros H Hp Hq Ha.
  specialize (H p Hp). rewrite Forall_forall in H.
  apply (H q Hq). by apply isAncestorPath_prefix.
Qed.

(** ** getDescendants *)

Lemma descendantQuery_perm st page depth :
  descendantQuery st page depth ≡ₚ filter (inSubtree page depth) st.
Proof. apply merge_sort_Permutation. Qed.

Lemma descendantQuery_sorted st page depth :
  StronglySorted levelRankLe (descendantQuery st page depth).
Proof.
  apply (@StronglySorted_merge_sort _ _ _ levelRankLe_trans levelRankLe_total).
Qed.

Lemma descendantQuery_elem st page depth p :
  p ∈ descendantQuery st page depth ↔ p ∈ st ∧ inSubtree page depth p.
Proof.
  rewrite descendantQuery_perm, list_elem_of_filter. tauto.
Qed.

Lemma inSubtree_has page depth p : inSubtree page depth p → Str.has Str.slash (path p) = true.
Proof.
  intros [Hpre _]. apply (isAncestorPath_has (path page)).
  by apply isAncestorPath_prefix.
Qed.

(** C5.  [getDescendants] returns the stored pages whose path goes on
    after the path of the page and a slash and whose level is above the
    level of the page by at most the depth, in the order of level and
    then rank; each of them is placed exactly once, as a child of the
    returned page that has the path of its parent or, when no returned
    page has that path, at the top, and brothers keep the query order. *)
Theorem getDescendants_nests root st page depth :
  levelsFollowPaths st →
  let d := getDescendants root st page depth in
  let found := descendantQuery st page depth in
  nodes d = (λ p, withUrl (root +:+ slug p) p) <$> found ∧
  found ≡ₚ filter (inSubtree page depth) st ∧
  (∀ p, p ∈ found ↔
        p ∈ st ∧ String.prefix (path page +:+ "/") (path p) = true ∧
        (level page < level p ∧ level p ≤ level page + depth)%Z) ∧
  StronglySorted levelRankLe found ∧
  top d ++ concat (kids d) ≡ₚ seq 0 (length found) ∧
  StronglySorted lt (top d) ∧ Forall (StronglySorted lt) (kids d) ∧
  (∀ (j : nat) (c : list nat) (i : nat), kids d !! j = Some c → i ∈ c →
     j < i ∧ ∃ pj pi, found !! j = Some pj ∧ found !! i = Some pi ∧
                      path pj = parentPath (path pi)) ∧
  (∀ (i : nat) pi, i ∈ top d → found !! i = Some pi →
     ∀ q, q ∈ found → path q ≠ parentPath (path pi)).
Proof.
  intros Hlev d found.
  pose proof (nestInv_run found) as [Hlen Hby Hknown Hkids Htop Hperm Hts Hks].
  assert (Hin : ∀ p, p ∈ found → p ∈ st ∧ inSubtree page depth p).
  { intros p. apply descendantQuery_elem. }
  split_and!; try done.
  - apply descendantQuery_perm.
  - intros p. unfold found. rewrite descendantQuery_elem. unfold inSubtree. tauto.
  - apply descendantQuery_sorted.
  - intros j c i Hc Hi. destruct (Hkids j c i Hc Hi) as (Hle & pj & pi & Hpj & Hpi & Hp).
    split; [|by exists pj, pi].
    destruct (decide (j = i)) as [->|]; [|lia]. exfalso.
    assert (pj = pi) as -> by congruence.
    apply list_elem_of_lookup_2, Hin in Hpi as [_ Hsub].
    apply inSubtree_has in Hsub.
    assert (path pi ≠ "") as Hne by (intros E; by rewrite E in Hsub).
    apply parentPath_shorter in Hne. rewrite <- Hp in Hne. lia.
  - intros i pi Hi Hpi q Hq Hpath.
    destruct (Htop i Hi) as (pi' & Hpi' & Hno).
    assert (pi' = pi) as -> by congruence.
    apply list_elem_of_lookup_1 in Hq as [j Hj].
    destruct (decide (j ≤ i)%nat) as [Hle|Hgt]; [by eapply Hno|].
    assert (Hord : levelRankLe pi q).
    { eapply (StronglySorted_lookup_lt levelRankLe found i j); eauto.
      - apply descendantQuery_sorted.
      - lia. }
    destruct (Hin pi) as [Hpst Hsub]; [by eapply list_elem_of_lookup_2|].
    destruct (Hin q) as [Hqst _]; [by eapply list_elem_of_lookup_2|].
    apply inSubtree_has, isAncestorPath_parent in Hsub. rewrite <- Hpath in Hsub.
    pose proof (levelsFollowPaths_lt st pi q Hlev Hpst Hqst Hsub).
    unfold levelRankLe in Hord. lia.
Qed.

Lemma sampleStore_levels : levelsFollowPaths sampleStore.
Proof. apply (bool_decide_unpack _). by vm_compute. Qed.

Lemma getDescendants_nests_witness :
  levelsFollowPaths sampleStore ∧
  kids (getDescendants "" sampleStore home 2) = [[2]; []; []] ∧
  top (getDescendants "" sampleStore home 2) = [0; 1] ∧
  top (getDescendants "" sampleStore home 2) ++ concat (kids (getDescendants "" sampleStore home 2))
    ≡ₚ seq 0 (length (descendantQuery sampleStore home 2)).
Proof.
  split; [apply sampleStore_levels|]. split; [by vm_compute|]. split; [by vm_compute|].
  exact (proj1 (proj2 (proj2 (proj2 (proj2
    (getDescendants_nests "" sampleStore home 2 sampleStore_levels)))))).
Defined.

(** ** The delete route on a page that has children *)

Lemma nestTop_nonempty root st page depth :
  descendantQuery st page depth ≠ [] → top (getDescendants root st page depth) ≠ [].
Proof.
  intros Hne Htop.
  pose proof (nestInv_run (descendantQuery st page depth))
    as [Hlen Hby Hknown Hkids _ Hperm _ _].
  simpl in Htop. rewrite Htop in Hperm. simpl in Hperm.
  destruct (descendantQuery st page depth) as [|p found] eqn:Hq; [done|].
  assert (H0 : 0 ∈ concat (nestKids (foldl nestStep (mkNest ∅ [] []) (p :: found)))).
  { rewrite Hperm. simpl. by left. }
  apply list_elem_of_In, in_concat in H0 as (c & Hc & H0).
  apply list_elem_of_In in Hc, H0.
  apply list_elem_of_lookup_1 in Hc as [j Hj].
  destruct (Hkids j c 0 Hj H0) as (Hle & pj & pi & Hpj & Hpi & Hp).
  assert (j = 0) as -> by lia. simpl in Hpj, Hpi.
  injection Hpj as <-. injection Hpi as <-.
  assert (Hin : p ∈ descendantQuery st page depth) by (rewrite Hq; by left).
  apply descendantQuery_elem in Hin as [_ Hsub]. apply inSubtree_has in Hsub.
  assert (path p ≠ "") as Hne' by (intros E; by rewrite E in Hsub).
  apply parentPath_shorter in Hne'. rewrite <- Hp in Hne'. lia.
Qed.

Lemma hasChildren_query st page depth p :
  p ∈ st → inSubtree page depth p → descendantQuery st page depth ≠ [].
Proof.
  intros Hp Hsub Hnil.
  assert (Hin : p ∈ descendantQuery st page depth) by by apply descendantQuery_elem.
  rewrite Hnil in Hin. by apply elem_of_nil in Hin.
Qed.

(** C7 as the code has it.  A delete request on a page that has a
    child at depth one fails and leaves the store as it was.  The
    failure is "Remove child pages first" when the permission step lets
    the request through and the page has a stored ancestor; a refusal
    of the permission step, a page without ancestors or a page without
    a path ends the request before the children are looked at, with the
    permission error, with "Cannot remove home page" or with a thrown
    TypeError. *)
Theorem delete_with_children_fails permissions st req page child :
  (getPage st (bSlug (body req))).1.1 = Some page →
  child ∈ st → inSubtree page 1 child →
  (deleteHandler permissions st req).2 = st ∧
  (∀ s, (deleteHandler permissions st req).1 ≠ Ok s) ∧
  (permissions (user req) "add-page" None = None →
   ∀ ancestors, getAncestors "" st page = Some ancestors → ancestors ≠ [] →
     (deleteHandler permissions st req).1 = Err "Remove child pages first") ∧
  (∀ e, permissions (user req) "add-page" None = Some e →
     (deleteHandler permissions st req).1 = Err e) ∧
  (permissions (user req) "add-page" None = None →
   getAncestors "" st page = Some [] →
     (deleteHandler permissions st req).1 = Err "Cannot remove home page") ∧
  (permissions (user req) "add-page" None = None →
   getAncestors "" st page = None →
     (deleteHandler permissions st req).1 = Thrown "TypeError").
Proof.
  intros Hpage Hchild Hsub.
  assert (Htop : top (getDescendants "" st page 1) ≠ []).
  { by eapply nestTop_nonempty, hasChildren_query. }
  unfold deleteHandler. rewrite Hpage.
  rewrite (bool_decide_eq_true_2 _ Htop).
  destruct (permissions _ _ _) as [e|]; [split_and!; try done; by intros ? [= <-]|].
  destruct (getAncestors "" st page) as [ancestors|]; [|by split_and!].
  destruct (last ancestors) as [parent|] eqn:Hlast.
  - split_and!; try done. intros _ [= ->]. done.
  - apply last_None in Hlast as ->. split_and!; try done. by intros _ a [= <-] Hne.
Qed.

Lemma delete_with_children_fails_witness :
  (deleteHandler allowAll sampleStore (deleteRequest "/about")).1
  = Err "Remove child pages first".
Proof.
  refine (proj1 (proj2 (proj2 (delete_with_children_fails allowAll sampleStore
                                 (deleteRequest "/about") about team _ _ _)))
                eq_refl [withUrl "/" home] _ _).
  - reflexivity.
  - apply (bool_decide_unpack _). by vm_compute.
  - apply (bool_decide_unpack _). by vm_compute.
  - by vm_compute.
  - discriminate.
Defined.

(** C7 as the claim has it fails on the home page: it has children, and
    the delete request ends with "Cannot remove home page". *)
Lemma delete_home_with_children :
  ¬ (∀ permissions st req page child,
       (getPage st (bSlug (body req))).1.1 = Some page →
       child ∈ st → inSubtree page 1 child →
       (deleteHandler permissions st req).1 = Err "Remove child pages first").
Proof.
  intros H.
  specialize (H allowAll sampleStore (deleteRequest "/") home about).
  assert (Hr : (deleteHandler allowAll sampleStore (deleteRequest "/")).1
               = Err "Cannot remove home page") by by vm_compute.
  rewrite Hr in H. discriminate H.
  - reflexivity.
  - apply (bool_decide_unpack _). by vm_compute.
  - apply (bool_decide_unpack _). by vm_compute.
Qed.

(** ** What an edit leaves alone *)

Lemma getPage_exact st s : (getPage st s).1.1 = findBySlug st s.
Proof.
  unfold getPage. destruct (findBySlug st s); [done|].
  by destruct (foldl longer None _).
Qed.

Lemma fmap_insert_same {A} (f : Page → A) (st : Store) i old new :
  st !! i = Some old → f new = f old → f <$> <[i := new]> st = f <$> st.
Proof.
  intros Hi Hf. rewrite list_fmap_insert, Hf. apply list_insert_id.
  by rewrite list_lookup_fmap, Hi.
Qed.

Lemma putPage_keeps {A} (f : Page → A) s page old st st' :
  findBySlug st s = Some old → f page = f old →
  putPage s page st = Ok st' → f <$> st' = f <$> st.
Proof.
  unfold findBySlug, putPage. destruct (list_find _ st) as [[i p]|] eqn:Hf; [|done].
  simpl. intros [= ->] Heq. destruct (keysFree _ _); [|done]. intros [= <-].
  apply list_find_Some in Hf as (Hi & _). by eapply fmap_insert_same.
Qed.

Lemma updateSlug_keeps {A} (f : Page → A) old new st st' :
  (∀ s p, f (withSlug s p) = f p) →
  updateSlug old new st = Ok st' → f <$> st' = f <$> st.
Proof.
  intros Hf. unfold updateSlug. destruct (list_find _ st) as [[i p]|] eqn:Hfind.
  - destruct (bool_decide _); [done|]. intros [= <-].
    apply list_find_Some in Hfind as (Hi & _). by eapply fmap_insert_same.
  - by intros [= <-].
Qed.

Lemma cascade_keeps {A} (f : Page → A) originalSlug slug' ds st :
  (∀ s p, f (withSlug s p) = f p) →
  f <$> (cascade originalSlug slug' ds st).2 = f <$> st.
Proof.
  intros Hf. revert st. induction ds as [|d ds IH]; intros st; simpl; [done|].
  destruct (updateSlug _ _ st) as [st1| |] eqn:Hu; try done.
  rewrite IH. by eapply updateSlug_keeps.
Qed.

Lemma updateDescendants_keeps {A} (f : Page → A) originalSlug slug' st :
  (∀ s p, f (withSlug s p) = f p) →
  f <$> (updateDescendants originalSlug slug' st).2 = f <$> st.
Proof.
  intros Hf. unfold updateDescendants. destruct (String.eqb _ _); [done|].
  by apply cascade_keeps.
Qed.

Lemma editHandler_keeps {A} (f : Page → A) slugify permissions types w req :
  (∀ s p, f (withSlug s p) = f p) →
  (∀ t s p l r ty ar td u t' s' ty' td',
      f (mkPage t s p l r ty ar td u) = f (mkPage t' s' p l r ty' ar td' u)) →
  f <$> pages (editHandler slugify permissions types w req).2 = f <$> pages w.
Proof.
  intros Hf Hg. unfold editHandler. rewrite getPage_exact.
  destruct (findBySlug (pages w) _) as [old|] eqn:Hold; [|done].
  destruct (permissions _ _ _); [done|].
  destruct (determineType types req) as [ty|]; [|done].
  destruct (_ && _); [done|].
  destruct (addSanitizedTypeData _ _ _) as [pg| |] eqn:Ha; try done.
  destruct (putPage _ _ _) as [st1| |] eqn:Hput; try done.
  assert (Hst1 : f <$> st1 = f <$> pages w).
  { eapply putPage_keeps; [exact Hold| |exact Hput].
    unfold addSanitizedTypeData in Ha. destruct old.
    destruct (sanitize ty) as [g|].
    - destruct (g _); [|done]. injection Ha as <-. apply Hg.
    - injection Ha as <-. apply Hg. }
  pose proof (updateDescendants_keeps f (bOriginalSlug (body req))
                (normalizeSlug slugify (bSlug (body req))) st1 Hf) as Hc.
  destruct (updateDescendants _ _ st1) as [[e|] st2]; simpl in *; congruence.
Qed.







(** ** getAncestors *)

Lemma split_nonempty s : Str.split s ≠ [].
Proof.
  destruct s as [|a r]; simpl; [done|].
  destruct (Ascii.eqb a Str.slash); [done|]. by destruct (Str.split r).
Qed.

Lemma ancestorStep_path P acc acc' L c c' :
  acc +:+ c = acc' +:+ c' →
  ancestorStep P (acc, L) c = ancestorStep P (acc', L) c'.
Proof. unfold ancestorStep. simpl. by intros ->. Qed.

Lemma ancestor_fold P s acc L :
  P = acc +:+ s →
  (foldl (ancestorStep P) (acc, L) (Str.split s)).2 = L ++ boundaries acc s.
Proof.
  revert acc L. induction s as [|a r IH]; intros acc L HP.
  - simpl. unfold ancestorStep. simpl. rewrite <- HP, String.eqb_refl. simpl.
    by rewrite (right_id_L [] (++)).
  - simpl. destruct (Ascii.eqb a Str.slash) eqn:Ea.
    + apply ascii_eqb_true in Ea as ->. simpl. unfold ancestorStep at 2. simpl.
      rewrite str_app_nil_r.
      destruct (String.eqb_spec acc P) as [Heq|_].
      { exfalso. rewrite <- (str_app_nil_r acc) in Heq at 1. rewrite HP in Heq.
        by apply (inj (String.append acc)) in Heq. }
      rewrite IH; [by rewrite <- (assoc_L (++))|].
      by rewrite HP, str_app_assoc.
    + pose proof (split_nonempty r) as Hne.
      specialize (IH (acc +:+ String a "") L).
      destruct (Str.split r) as [|h t]; [done|]. simpl in *.
      rewrite (ancestorStep_path P acc (acc +:+ String a "") L (String a h) h).
      * apply IH. by rewrite HP, str_app_assoc.
      * by rewrite str_app_assoc.
Qed.

Lemma elem_of_boundaries acc s q :
  q ∈ boundaries acc s ↔ ∃ a r, s = a +:+ String Str.slash r ∧ q = acc +:+ a.
Proof.
  revert acc. induction s as [|x s IH]; intros acc; simpl.
  - split; [by intros ?%elem_of_nil|]. by intros ([|] & r & ? & _).
  - assert (Hrest : q ∈ boundaries (acc +:+ String x "") s ↔
                    ∃ a r, String x s = String x a +:+ String Str.slash r ∧
                           q = acc +:+ String x a).
    { rewrite IH. split; intros (a & r & Hs & Hq); exists a, r.
      - split; [simpl; by rewrite Hs|]. by rewrite Hq, str_app_assoc.
      - simpl in Hs. injection Hs as Hs. split; [done|].
        by rewrite Hq, str_app_assoc. }
    destruct (Ascii.eqb x Str.slash) eqn:Ex.
    + apply ascii_eqb_true in Ex as ->. rewrite elem_of_cons, Hrest. split.
      * intros [->|(a & r & Hs & Hq)].
        -- exists "", s. by rewrite str_app_nil_r.
        -- by exists (String Str.slash a), r.
      * intros ([|y a] & r & Hs & Hq).
        -- left. by rewrite Hq, str_app_nil_r.
        -- right. simpl in Hs. injection Hs as <- Hs. exists a, r.
           split; [simpl; by rewrite Hs|done].
    + rewrite Hrest. split.
      * intros (a & r & Hs & Hq). by exists (String x a), r.
      * intros ([|y a] & r & Hs & Hq); simpl in Hs.
        -- injection Hs as -> _. discriminate Ex.
        -- injection Hs as <- Hs. exists a, r. split; [simpl; by rewrite Hs|done].
Qed.

Lemma ancestorPaths_boundaries s : ancestorPaths s = boundaries "" s.
Proof. unfold ancestorPaths. by rewrite ancestor_fold. Qed.

Lemma ancestorPaths_spec s q : q ∈ ancestorPaths s ↔ isAncestorPath q s.
Proof.
  rewrite ancestorPaths_boundaries, elem_of_boundaries. unfold isAncestorPath.
  split.
  - intros (a & r & -> & ->). by exists r.
  - intros (r & ->). by exists q, r.
Qed.

Lemma str_le_app a r : String.le a (a +:+ r).
Proof.
  unfold String.le, String.leb. induction a as [|x a IH]; simpl.
  - by destruct r.
  - assert (Ascii.compare x x = Eq) as ->; [|done].
    unfold Ascii.compare. apply N.compare_refl.
Qed.

Lemma str_app_eq_app a u b v :
  a +:+ u = b +:+ v → (String.length a ≤ String.length b)%nat →
  ∃ w, b = a +:+ w ∧ u = w +:+ v.
Proof.
  revert b. induction a as [|x a IH]; intros b Heq Hlen; simpl in *.
  - by exists b.
  - destruct b as [|y b]; simpl in *; [lia|].
    injection Heq as -> Heq. destruct (IH b Heq) as (w & -> & ->); [lia|].
    by exists w.
Qed.

Lemma isAncestorPath_chain a b s :
  isAncestorPath a s → isAncestorPath b s →
  (String.length a ≤ String.length b)%nat → a = b ∨ isAncestorPath a b.
Proof.
  intros [r1 ->] [r2 Heq] Hlen.
  destruct (str_app_eq_app a ("/" +:+ r1) b ("/" +:+ r2) Heq Hlen) as (w & -> & Hw).
  destruct w as [|c w]; [left; by rewrite str_app_nil_r|].
  right. simpl in Hw. injection Hw as <- _. by exists w.
Qed.

Lemma isAncestorPath_shorter a s :
  isAncestorPath a s → (String.length a < String.length s)%nat.
Proof. intros [r ->]. rewrite str_app_length. simpl. lia. Qed.

Lemma isAncestorPath_le a s : isAncestorPath a s → String.le a s.
Proof. intros [r ->]. apply str_le_app. Qed.

Lemma ancestors_le_length a b s :
  isAncestorPath a s → isAncestorPath b s → String.le a b →
  (String.length a ≤ String.length b)%nat.
Proof.
  intros Ha Hb Hle.
  destruct (decide (String.length a ≤ String.length b)%nat) as [|Hgt]; [done|].
  destruct (isAncestorPath_chain b a s Hb Ha) as [->|Hba]; [lia|lia|].
  pose proof (isAncestorPath_shorter _ _ Hba).
  pose proof (isAncestorPath_le _ _ Hba) as Hle'.
  assert (a = b) as -> by by apply (anti_symm String.le). lia.
Qed.

Lemma StronglySorted_weaken {A} (R S : relation A) (P : A → Prop) l :
  (∀ x y, P x → P y → R x y → S x y) →
  Forall P l → StronglySorted R l → StronglySorted S l.
Proof.
  intros HRS HP Hs. induction Hs as [|x l Hs IH Hall]; [constructor|].
  apply Forall_cons in HP as [Hx HP]. constructor; [by apply IH|].
  rewrite Forall_forall in *. intros y Hy. apply HRS; auto.
Qed.

Lemma ancestors_strict s l :
  StronglySorted pathLe l →
  Forall (λ p, isAncestorPath (path p) s) l →
  NoDup (path <$> l) →
  StronglySorted (λ a b, (String.length (path a) < String.length (path b))%nat) l.
Proof.
  intros Hs. induction Hs as [|x l Hs IH Hall]; intros HP Hnd; [constructor|].
  apply Forall_cons in HP as [Hx HP]. simpl in Hnd.
  apply NoDup_cons in Hnd as [Hnx Hnd].
  constructor; [by apply IH|].
  rewrite Forall_forall in *. intros y Hy.
  pose proof (ancestors_le_length _ _ _ Hx (HP y Hy) (Hall y Hy)) as Hle.
  destruct (decide (String.length (path x) = String.length (path y))) as [Heq|]; [|lia].
  exfalso. apply Hnx.
  destruct (isAncestorPath_chain _ _ _ Hx (HP y Hy) Hle) as [->|Hxy].
  - by apply list_elem_of_fmap_2.
  - apply isAncestorPath_shorter in Hxy. lia.
Qed.

Lemma NoDup_paths_filter (P : Page → Prop) `{∀ p, Decision (P p)} (st l : Store) :
  NoDup (paths st) → l ≡ₚ filter P st → NoDup (path <$> l).
Proof.
  intros Hnd ->. eapply sublist_NoDup; [exact Hnd|].
  apply fmap_sublist, sublist_filter.
Qed.

(** C6.  For a page with a non-empty path [getAncestors] returns the
    stored pages whose paths stand before a slash of the path of the
    page, the page itself left out, each with its url; while paths are
    unique every entry has a longer path than the one before it, while
    levels follow paths every entry has a greater level than the one
    before it, and the stored parent of the page is the last entry. *)
Theorem getAncestors_chain root st page :
  path page ≠ "" → uniqueKeys st → levelsFollowPaths st →
  ∃ found,
    getAncestors root st page = Some ((λ p, withUrl (root +:+ slug p) p) <$> found) ∧
    (∀ p, p ∈ found ↔ p ∈ st ∧ isAncestorPath (path p) (path page)) ∧
    (∀ p, p ∈ found → path p ≠ path page) ∧
    StronglySorted (λ a b, (String.length (path a) < String.length (path b))%nat)
                   ((λ p, withUrl (root +:+ slug p) p) <$> found) ∧
    StronglySorted (λ a b, (level a < level b)%Z)
                   ((λ p, withUrl (root +:+ slug p) p) <$> found) ∧
    (∀ p, p ∈ st → path p = parentPath (path page) →
          Str.has Str.slash (path page) = true →
          last ((λ p, withUrl (root +:+ slug p) p) <$> found)
          = Some (withUrl (root +:+ slug p) p)).
Proof.
  intros Hne [_ Hnd] Hlev.
  set (found := merge_sort pathLe
                  (filter (λ p, path p ∈ ancestorPaths (path page)) st)).
  assert (Hperm : found ≡ₚ filter (λ p, path p ∈ ancestorPaths (path page)) st)
    by apply merge_sort_Permutation.
  assert (Hin : ∀ p, p ∈ found ↔ p ∈ st ∧ isAncestorPath (path p) (path page)).
  { intros p. rewrite Hperm, list_elem_of_filter, ancestorPaths_spec. tauto. }
  assert (Hsorted : StronglySorted pathLe found).
  { apply (@StronglySorted_merge_sort _ _ _ pathLe_trans pathLe_total). }
  assert (Hall : Forall (λ p, isAncestorPath (path p) (path page)) found).
  { apply Forall_forall. intros p Hp. by apply Hin. }
  assert (Hstrict : StronglySorted
            (λ a b, (String.length (path a) < String.length (path b))%nat) found).
  { eapply ancestors_strict; [done|done|]. by eapply NoDup_paths_filter. }
  exists found. split_and!.
  - unfold getAncestors. destruct (String.eqb_spec (path page) ""); done.
  - exact Hin.
  - intros p Hp%Hin Heq. destruct Hp as [_ Hp%isAncestorPath_shorter].
    rewrite Heq in Hp. lia.
  - eapply StronglySorted_fmap; [|exact Hstrict]. by intros x y.
  - eapply StronglySorted_fmap; [intros x y Hxy; exact Hxy|].
    eapply (StronglySorted_weaken _ _ (λ p, p ∈ found));
      [|by apply Forall_forall|exact Hstrict].
    intros x y [Hx Hax]%Hin [Hy Hay]%Hin Hlt.
    apply (levelsFollowPaths_lt st y x Hlev Hy Hx).
    destruct (isAncestorPath_chain _ _ _ Hax Hay) as [Heq|Hxy]; [lia| |done].
    rewrite Heq in Hlt. lia.
  - intros p Hp Hpath Hhas. rewrite fmap_last.
    assert (Hpf : p ∈ found).
    { apply Hin. split; [done|]. rewrite Hpath. by apply isAncestorPath_parent. }
    destruct (last found) as [x|] eqn:Hlast.
    + simpl. f_equal. apply last_Some in Hlast as [pre Hpre].
      rewrite Hpre in Hpf, Hstrict. apply elem_of_app in Hpf as [Hpl|Hpx].
      * exfalso.
        pose proof (StronglySorted_app_1_elem_of _ _ _ p x Hstrict Hpl) as Hlt.
        assert (Hxf : x ∈ found) by (rewrite Hpre, elem_of_app; right; by left).
        apply Hin in Hxf as [_ Hxa%isAncestorPath_length].
        specialize (Hlt ltac:(by left)). simpl in Hlt.
        rewrite Hpath in Hlt. lia.
      * apply list_elem_of_singleton in Hpx. by subst.
    + apply last_None in Hlast. rewrite Hlast in Hpf. by apply elem_of_nil in Hpf.
Qed.

Lemma sampleStore_unique : uniqueKeys sampleStore.
Proof. apply (bool_decide_unpack _). by vm_compute. Qed.

Lemma sampleTypes_ok : typeNamesOk sampleTypes.
Proof.
  intros t Ht Hs. apply list_elem_of_singleton in Ht as ->. by destruct Hs.
Qed.

Lemma getAncestors_chain_witness :
  ∃ found,
    getAncestors "" sampleStore team
    = Some ((λ p, withUrl ("" +:+ slug p) p) <$> found) ∧
    (∀ p, p ∈ found ↔ p ∈ sampleStore ∧ isAncestorPath (path p) (path team)).
Proof.
  destruct (getAncestors_chain "" sampleStore team) as (found & H1 & H2 & _).
  - discriminate.
  - apply sampleStore_unique.
  - apply sampleStore_levels.
  - exists found. by split.
Defined.

Example getAncestors_team :
  getAncestors "" sampleStore team = Some [withUrl "/" home; withUrl "/about" about].
Proof. by vm_compute. Qed.


(** ** The cascade of a rename *)

Lemma expand_plain before matched after repl :
  Str.has Str.dollar repl = false → Str.expand before matched after repl = repl.
Proof.
  induction repl as [|x r IH]; simpl; [done|].
  destruct (Ascii.eqb x Str.dollar); [done|]. intros H. by rewrite IH.
Qed.

Lemma replacePrefix_plain originalSlug slug' s :
  String.prefix (originalSlug +:+ "/") s = true →
  Str.has Str.dollar slug' = false →
  Str.replacePrefix (originalSlug +:+ "/") (slug' +:+ "/") s
  = slug' +:+ "/" +:+ Str.drop (String.length originalSlug + 1) s.
Proof.
  intros Hpre Hno. unfold Str.replacePrefix. rewrite Hpre.
  rewrite expand_plain.
  - rewrite str_app_assoc, str_app_length. done.
  - rewrite has_app, Hno. done.
Qed.

Lemma str_app_inj_r a b r : a +:+ r = b +:+ r → a = b.
Proof.
  intros Heq. assert (Hlen : String.length a = String.length b).
  { apply (f_equal String.length) in Heq. rewrite !str_app_length in Heq. lia. }
  destruct (str_app_eq_app a r b r Heq) as (w & -> & Hw); [lia|].
  rewrite str_app_length in Hlen. destruct w; [by rewrite str_app_nil_r|].
  simpl in Hlen. lia.
Qed.

Lemma insert_as_map (st : Store) i p new :
  NoDup (slugs st) → st !! i = Some p →
  <[i := withSlug new p]> st
  = (λ x, if decide (slug x = slug p) then withSlug new x else x) <$> st.
Proof.
  intros Hnd Hi. apply list_eq. intros j. rewrite list_lookup_fmap.
  destruct (decide (i = j)) as [<-|Hne].
  - rewrite list_lookup_insert_eq by by eapply lookup_lt_Some.
    rewrite Hi. simpl. by rewrite decide_True.
  - rewrite list_lookup_insert_ne by done.
    destruct (st !! j) as [q|] eqn:Hj; [|done]. simpl.
    rewrite decide_False; [done|]. intros Heq. apply Hne.
    apply (NoDup_lookup (slugs st) i j (slug p) Hnd); unfold slugs;
      rewrite list_lookup_fmap; [by rewrite Hi|by rewrite Hj, <- Heq].
Qed.

Lemma updateSlug_spec old new st st' :
  NoDup (slugs st) → old ∈ slugs st → new ≠ old →
  updateSlug old new st = Ok st' →
  st' = ((λ x, if decide (slug x = old) then withSlug new x else x) <$> st) ∧
  (new ∉ slugs st) ∧ NoDup (slugs st').
Proof.
  intros Hnd Hold Hne. unfold updateSlug.
  destruct (list_find _ st) as [[i p]|] eqn:Hf.
  - apply list_find_Some in Hf as (Hi & Hp & _).
    destruct (bool_decide_reflect (new ∈ slugs (delete i st))) as [|Hfree]; [done|].
    intros [= <-].
    assert (Hnew : new ∉ slugs st).
    { intros Hin. apply Hfree. unfold slugs in *.
      apply list_elem_of_lookup_1 in Hin as [j Hj].
      rewrite list_fmap_delete. apply list_elem_of_lookup.
      assert (j ≠ i).
      { intros ->. rewrite list_lookup_fmap, Hi in Hj. simpl in Hj. congruence. }
      destruct (decide (j < i)) as [Hlt|Hge].
      - exists j. by rewrite list_lookup_delete_lt.
      - exists (pred j). rewrite list_lookup_delete_ge by lia.
        by replace (S (pred j)) with j by lia. }
    rewrite (insert_as_map st i p new Hnd Hi), Hp. split_and!; [done..|].
    unfold slugs. rewrite <- list_fmap_compose.
    rewrite (list_fmap_ext _ ((λ s, if decide (s = old) then new else s) ∘ slug) st).
    + rewrite list_fmap_compose. apply NoDup_fmap_2_strong; [|done].
      intros x y Hx Hy. repeat case_decide; intros; subst; done.
    + intros j x _. simpl. by case_decide.
  - apply list_find_None in Hf. exfalso.
    apply list_elem_of_fmap in Hold as (p & -> & Hp).
    rewrite Forall_forall in Hf. by apply (Hf p Hp).
Qed.

Lemma cascade_spec originalSlug slug' ds st st' :
  NoDup (slugs st) → NoDup (slug <$> ds) →
  (∀ d, d ∈ ds → slug d ∈ slugs st ∧
                 String.prefix (originalSlug +:+ "/") (slug d) = true) →
  originalSlug ≠ slug' → Str.has Str.dollar slug' = false →
  cascade originalSlug slug' ds st = (None, st') →
  st' = ((λ p, if decide (slug p ∈ slug <$> ds)
               then rewriteSlug originalSlug slug' p else p) <$> st) ∧
  NoDup (slugs st').
Proof.
  intros Hnd Hds Hall Hne Hno. revert st Hnd Hall.
  induction ds as [|d ds IH]; intros st Hnd Hall; cbn [cascade].
  - intros [= <-]. split; [|done]. rewrite <- (list_fmap_id st) at 1.
    apply list_fmap_ext. intros i p _. rewrite decide_False; [done|].
    by intros ?%elem_of_nil.
  - apply NoDup_cons in Hds as [Hd Hds].
    destruct (Hall d) as [Hdin Hdpre]; [by left|].
    rewrite (replacePrefix_plain _ _ _ Hdpre Hno).
    set (new := slug' +:+ "/" +:+ Str.drop (String.length originalSlug + 1) (slug d)).
    assert (Hnew : new ≠ slug d).
    { unfold new. intros Heq. apply Hne.
      apply str_prefix_iff in Hdpre as [r Hr]. rewrite Hr in Heq.
      replace (String.length originalSlug + 1)
        with (String.length (originalSlug +:+ "/")) in Heq
        by (rewrite str_app_length; done).
      rewrite str_drop_app, str_app_assoc in Heq.
      symmetry. by eapply str_app_inj_r. }
    destruct (updateSlug (slug d) new st) as [st1| |] eqn:Hu; try done.
    destruct (updateSlug_spec _ _ _ _ Hnd Hdin Hnew Hu) as (Hst1 & Hfresh & Hnd1).
    intros Hc. apply (IH Hds st1 Hnd1) in Hc as [Hc Hnd']; clear IH.
    + split; [|done].
      rewrite Hc, Hst1, <- list_fmap_compose. apply list_fmap_ext.
      intros i p Hp. simpl. destruct (decide (slug p = slug d)) as [Heq|Hneq].
      * change (slug (withSlug new p)) with new.
        destruct (decide (new ∈ slug <$> ds)) as [Hin|_].
        { exfalso. apply Hfresh.
          apply list_elem_of_fmap in Hin as (d' & -> & Hd').
          apply Hall. by right. }
        rewrite decide_True by (rewrite Heq; left).
        unfold rewriteSlug. by rewrite Heq, Hdpre.
      * destruct (decide (slug p ∈ slug <$> ds)) as [Hin|Hnin].
        -- rewrite decide_True; [done|]. by right.
        -- rewrite decide_False; [done|].
           intros [?|?]%elem_of_cons; done.
    + intros d' Hd'. destruct (Hall d') as [Hin Hpre]; [by right|].
      split; [|done]. rewrite Hst1. unfold slugs in *.
      rewrite <- list_fmap_compose.
      apply list_elem_of_fmap in Hin as (p & Hp & Hpin).
      apply list_elem_of_fmap. exists p. split; [|done]. simpl.
      rewrite decide_False; [done|]. intros Heq. apply Hd.
      rewrite <- Heq, <- Hp. by apply list_elem_of_fmap_2.
Qed.

Lemma elem_of_insert_inv {A} (l : list A) i x y :
  y ∈ <[i := x]> l → y = x ∨ y ∈ l.
Proof.
  intros [j Hj]%list_elem_of_lookup_1.
  destruct (decide (i = j)) as [<-|Hne].
  - destruct (decide (i < length l)).
    + rewrite list_lookup_insert_eq in Hj by done. left. congruence.
    + rewrite list_insert_ge in Hj by lia. right. by eapply list_elem_of_lookup_2.
  - rewrite list_lookup_insert_ne in Hj by done. right.
    by eapply list_elem_of_lookup_2.
Qed.

Lemma NoDup_insert_fresh {A} (l : list A) i x :
  NoDup l → x ∉ delete i l → NoDup (<[i := x]> l).
Proof.
  revert i. induction l as [|a l IH]; intros i Hnd Hx; [done|].
  apply NoDup_cons in Hnd as [Ha Hnd]. destruct i as [|i]; simpl in *.
  - by apply NoDup_cons.
  - apply not_elem_of_cons in Hx as [Hxa Hx]. apply NoDup_cons. split.
    + intros [->|Hin]%elem_of_insert_inv; done.
    + by apply IH.
Qed.

Lemma putPage_unique s page st st' :
  uniqueKeys st → putPage s page st = Ok st' → uniqueKeys st'.
Proof.
  intros [Hs Hp]. unfold putPage, keysFree, uniqueKeys, slugs, paths.
  destruct (list_find _ st) as [[i old]|].
  - destruct (bool_decide_reflect (slug page ∉ slug <$> delete i st)) as [Hfs|];
      [|done].
    destruct (bool_decide_reflect (path page ∉ path <$> delete i st)) as [Hfp|];
      [|done].
    simpl. intros [= <-]. rewrite !list_fmap_insert.
    rewrite list_fmap_delete in Hfs, Hfp. split; by apply NoDup_insert_fresh.
  - destruct (bool_decide_reflect (slug page ∉ slug <$> st)) as [Hfs|]; [|done].
    destruct (bool_decide_reflect (path page ∉ path <$> st)) as [Hfp|]; [|done].
    simpl. intros [= <-]. rewrite !fmap_app. simpl.
    split; apply NoDup_app; split_and!; try done;
      try apply NoDup_singleton; intros x Hx ->%list_elem_of_singleton; done.
Qed.



(** ** Rank allocation *)













Lemma replaceFirstDouble_length s :
  (String.length s ≤ String.length (Str.replaceFirstDouble s) + 1)%nat.
Proof.
  induction s as [|a r IH]; [simpl; lia|].
  destruct r as [|b r']; [simpl; lia|].
  change (Str.replaceFirstDouble (String a (String b r')))
    with (if Ascii.eqb a Str.slash && Ascii.eqb b Str.slash
          then String Str.slash r'
          else String a (Str.replaceFirstDouble (String b r'))).
  destruct (Ascii.eqb a Str.slash && Ascii.eqb b Str.slash).
  - simpl. lia.
  - cbn [String.length] in *. lia.
Qed.

Lemma addSlashIfNeeded_longer parentSlug seg :
  seg ≠ "" → addSlashIfNeeded parentSlug +:+ seg ≠ parentSlug.
Proof.
  intros Hseg Heq. apply (f_equal String.length) in Heq.
  rewrite str_app_length in Heq. unfold addSlashIfNeeded in Heq.
  pose proof (replaceFirstDouble_length (parentSlug +:+ "/")) as Hlen.
  rewrite str_app_length in Hlen. simpl in Hlen.
  destruct seg; [done|]. simpl in Heq. lia.
Qed.

Lemma list_find_insert_other {A} (P : A → Prop) `{∀ x, Decision (P x)}
    (l : list A) i old new :
  l !! i = Some old → ¬ P old → ¬ P new →
  list_find P (<[i := new]> l) = list_find P l.
Proof.
  revert i. induction l as [|x l IH]; intros i Hi Hold Hnew; [done|].
  destruct i as [|i]; simpl in *.
  - injection Hi as ->. by rewrite !decide_False.
  - destruct (decide (P x)); [done|]. by rewrite (IH i).
Qed.

Lemma findBySlug_putPage s page st st' parentSlug parent :
  findBySlug st parentSlug = Some parent → s ≠ parentSlug → slug page ≠ parentSlug →
  putPage s page st = Ok st' → findBySlug st' parentSlug = Some parent.
Proof.
  unfold findBySlug, putPage. intros Hfind Hs Hpage.
  destruct (list_find (λ p, slug p = s) st) as [[i old]|] eqn:Hf.
  - destruct (keysFree _ _); [|done]. intros [= <-].
    apply list_find_Some in Hf as (Hi & Hold & _).
    rewrite (list_find_insert_other _ st i old page); [done..| |done].
    by rewrite Hold.
  - destruct (keysFree _ _); [|done]. intros [= <-].
    destruct (list_find (λ p, slug p = parentSlug) st) as [[j q]|] eqn:Hq; [|done].
    by rewrite (list_find_app_l _ _ _ _ _ Hq).
Qed.

Lemma putPage_elem s page st st' c :
  putPage s page st = Ok st' → c ∈ st' → c = page ∨ c ∈ st.
Proof.
  unfold putPage. destruct (list_find _ st) as [[i old]|].
  - destruct (keysFree _ _); [|done]. intros [= <-]. apply elem_of_insert_inv.
  - destruct (keysFree _ _); [|done]. intros [= <-].
    rewrite elem_of_app, list_elem_of_singleton. tauto.
Qed.






(** ** The scenario of the specification, run on the sample store *)

Example descendants_of_home :
  forest (getDescendants "" sampleStore home 1)
  = [Node (withUrl "/about" about) []; Node (withUrl "/contact" contact) []].
Proof. by vm_compute. Qed.

Example subtree_of_home :
  forest (getDescendants "" sampleStore home 2)
  = [Node (withUrl "/about" about) [Node (withUrl "/about/team" team) []];
     Node (withUrl "/contact" contact) []].
Proof. by vm_compute. Qed.

Example rename_about :
  let out := editHandler sampleSlugify allowAll sampleTypes sampleWorld
                         (editRequest "/about" "/company" "Company" "default") in
  slugs (pages out.2) = ["/"; "/company"; "/contact"; "/company/team"] ∧
  paths (pages out.2) = ["home"; "home/about"; "home/contact"; "home/about/team"] ∧
  redirects out.2 !! "/about" = Some "/company" ∧
  redirects out.2 !! "/about/team" = None.
Proof. by vm_compute. Qed.

Example serve_old_address :
  let out := editHandler sampleSlugify allowAll sampleTypes sampleWorld
                         (editRequest "/about" "/company" "Company" "default") in
  let o := mkServeOptions "" None [] None in
  serve allowAll sampleTypes o out.2 None "/about" = Redirected "/company" ∧
  serve allowAll sampleTypes o out.2 None "/about/team"
  = Rendered (mkSelection "notfound" 404 None).
Proof. by vm_compute. Qed.

Example new_page_of_unknown_type :
  (newHandler sampleSlugify allowAll sampleTypes sampleStore
              (newRequest "/about" "History" "timeline")).1
  = Ok (mkPage "History" "/about/history" "home/about/history" 2 2 "default" "{}" [] None).
Proof. by vm_compute. Qed.

(** * Further properties of the module *)

(** ** The normal form of slugs *)

Lemma collapse_head a r : ∃ x, Str.collapse (String a r) = String a x.
Proof.
  revert a. induction r as [|b r IH]; intros a; simpl.
  - destruct (Ascii.eqb a Str.slash); eauto.
  - destruct (Ascii.eqb a Str.slash) eqn:Ea; [|eauto].
    destruct (Ascii.eqb b Str.slash) eqn:Eb; [|eauto].
    apply ascii_eqb_true in Ea as ->. apply ascii_eqb_true in Eb as ->.
    apply (IH Str.slash).
Qed.

Lemma hasDouble_cons c a b r :
  hasDouble c (String a (String b r))
  = (Ascii.eqb a c && Ascii.eqb b c) || hasDouble c (String b r).
Proof. done. Qed.

Lemma collapse_no_double s : hasDouble Str.slash (Str.collapse s) = false.
Proof.
  induction s as [|a s IH]; [done|].
  destruct s as [|b r].
  - simpl. by destruct (Ascii.eqb a Str.slash).
  - destruct (collapse_head b r) as [x Hx].
    change (Str.collapse (String a (String b r)))
      with (if Ascii.eqb a Str.slash
            then if Ascii.eqb b Str.slash then Str.collapse (String b r)
                 else String a (Str.collapse (String b r))
            else String a (Str.collapse (String b r))).
    destruct (Ascii.eqb a Str.slash) eqn:Ea;
      [destruct (Ascii.eqb b Str.slash) eqn:Eb; [done|]|];
      rewrite Hx in *; rewrite hasDouble_cons, IH, ?Ea, ?Eb;
      by rewrite ?andb_false_r.
Qed.

Lemma prefix_slash_cons a r : String.prefix "/" (String a r) = true ↔ a = Str.slash.
Proof.
  rewrite str_prefix_iff. split.
  - intros [x Hx]. simpl in Hx. by injection Hx as ->.
  - intros ->. by exists r.
Qed.

Lemma collapse_prefix s :
  String.prefix "/" s = true → String.prefix "/" (Str.collapse s) = true.
Proof.
  destruct s as [|a r]; [done|]. destruct (collapse_head a r) as [x ->].
  by rewrite !prefix_slash_cons.
Qed.

Lemma stripTrailing_cons a b r :
  Str.stripTrailing (String a (String b r)) = String a (Str.stripTrailing (String b r)).
Proof. done. Qed.

Lemma stripTrailing_shape s :
  hasDouble Str.slash s = false →
  hasDouble Str.slash (Str.stripTrailing s) = false ∧
  endsWith Str.slash (Str.stripTrailing s) = false ∧
  (String.prefix "/" s = true →
   Str.stripTrailing s = "" ∨ String.prefix "/" (Str.stripTrailing s) = true).
Proof.
  induction s as [|a s IH]; [done|]. destruct s as [|b r].
  - simpl. destruct (Ascii.eqb a Str.slash) eqn:Ea; simpl; rewrite ?Ea; auto.
  - rewrite hasDouble_cons, stripTrailing_cons. intros Hd.
    apply orb_false_iff in Hd as [Hab Hd]. destruct (IH Hd) as (IH1 & IH2 & _).
    destruct r as [|c r].
    + simpl in *. destruct (Ascii.eqb b Str.slash) eqn:Eb; simpl.
      * rewrite andb_true_r in Hab. rewrite Hab. split_and!; [done..|].
        intros H. right. done.
      * rewrite Eb. split_and!; [by rewrite andb_false_r|done|]. by right.
    + rewrite stripTrailing_cons in *. split_and!.
      * by rewrite hasDouble_cons, Hab, IH1.
      * done.
      * intros H. by right.
Qed.

(** X1.  The slug that the edit route stores is empty or begins with a
    slash, holds no doubled slash and does not end in a slash, whatever
    [slugify] returns. *)
Theorem normalizeSlug_shape slugify raw :
  let s := normalizeSlug slugify raw in
  (s = "" ∨ String.prefix "/" s = true) ∧
  hasDouble Str.slash s = false ∧ endsWith Str.slash s = false.
Proof.
  cbv zeta. unfold normalizeSlug.
  set (t := if String.prefix "/" (slugify raw (Some "/")) then _ else _).
  assert (Ht : String.prefix "/" t = true).
  { unfold t. destruct (String.prefix "/" (slugify raw (Some "/"))) eqn:E; [done|].
    by apply prefix_slash_cons. }
  destruct (stripTrailing_shape (Str.collapse t) (collapse_no_double t))
    as (H1 & H2 & H3).
  split_and!; [|done..]. apply H3. by apply collapse_prefix.
Qed.

Lemma collapse_fixed s : hasDouble Str.slash s = false → Str.collapse s = s.
Proof.
  induction s as [|a s IH]; [done|]. destruct s as [|b r].
  - simpl. by destruct (Ascii.eqb a Str.slash).
  - rewrite hasDouble_cons. intros [Hab Hd]%orb_false_iff.
    change (Str.collapse (String a (String b r)))
      with (if Ascii.eqb a Str.slash
            then if Ascii.eqb b Str.slash then Str.collapse (String b r)
                 else String a (Str.collapse (String b r))
            else String a (Str.collapse (String b r))).
    rewrite (IH Hd).
    destruct (Ascii.eqb a Str.slash); [|done].
    by destruct (Ascii.eqb b Str.slash).
Qed.

Lemma stripTrailing_fixed s : endsWith Str.slash s = false → Str.stripTrailing s = s.
Proof.
  induction s as [|a s IH]; [done|]. destruct s as [|b r].
  - simpl. by intros ->.
  - intros H. rewrite stripTrailing_cons. f_equal. by apply IH.
Qed.

(** X2.  A slug in normal form that [slugify] leaves as it is passes
    the normalization of the edit route unchanged. *)
Theorem normalizeSlug_fixed slugify raw :
  normalSlug (slugify raw (Some "/")) →
  normalizeSlug slugify raw = slugify raw (Some "/").
Proof.
  intros (Hp & Hd & He). unfold normalizeSlug. rewrite Hp.
  rewrite (collapse_fixed _ Hd). by apply stripTrailing_fixed.
Qed.

Lemma normalizeSlug_fixed_witness :
  normalizeSlug sampleSlugify "/About/Team" = "/about/team".
Proof.
  refine (normalizeSlug_fixed sampleSlugify "/About/Team" _). by vm_compute.
Defined.

(** ** The slug of a new page *)

Lemma replaceFirstDouble_cons a b r :
  Str.replaceFirstDouble (String a (String b r))
  = if Ascii.eqb a Str.slash && Ascii.eqb b Str.slash then String Str.slash r
    else String a (Str.replaceFirstDouble (String b r)).
Proof. done. Qed.

Lemma replaceFirstDouble_fixed s :
  hasDouble Str.slash s = false → Str.replaceFirstDouble s = s.
Proof.
  induction s as [|a s IH]; [done|]. destruct s as [|b r]; [done|].
  rewrite hasDouble_cons, replaceFirstDouble_cons.
  intros [-> Hd]%orb_false_iff. by rewrite IH.
Qed.

Lemma hasDouble_snoc s :
  hasDouble Str.slash (s +:+ "/")
  = hasDouble Str.slash s || endsWith Str.slash s.
Proof.
  induction s as [|a s IH]; [done|]. destruct s as [|b r].
  - simpl. by rewrite andb_true_r, orb_false_r.
  - change (String a (String b r) +:+ "/") with (String a (String b r +:+ "/")).
    change (String b r +:+ "/") with (String b (r +:+ "/")) at 1.
    rewrite !hasDouble_cons.
    change (String b (r +:+ "/")) with (String b r +:+ "/").
    rewrite IH. change (endsWith Str.slash (String a (String b r)))
      with (endsWith Str.slash (String b r)).
    by rewrite orb_assoc.
Qed.

Lemma replaceFirstDouble_trailing s :
  hasDouble Str.slash s = false → endsWith Str.slash s = true →
  Str.replaceFirstDouble (s +:+ "/") = s.
Proof.
  induction s as [|a s IH]; [done|]. destruct s as [|b r].
  - simpl. intros _ Ha. by apply ascii_eqb_true in Ha as ->.
  - rewrite hasDouble_cons. intros [Hab Hd]%orb_false_iff He.
    change (String a (String b r) +:+ "/") with (String a (String b (r +:+ "/"))).
    rewrite replaceFirstDouble_cons, Hab. f_equal. by apply IH.
Qed.

Lemma replaceFirstDouble_ends x :
  ∃ y, Str.replaceFirstDouble (x +:+ "/") = y +:+ "/".
Proof.
  induction x as [|a r IH]; [by exists ""|].
  destruct r as [|b r0].
  - simpl. destruct (Ascii.eqb a Str.slash && true); [by exists ""|].
    by exists (String a "").
  - change (String a (String b r0) +:+ "/") with (String a (String b (r0 +:+ "/"))).
    rewrite replaceFirstDouble_cons.
    destruct (Ascii.eqb a Str.slash && Ascii.eqb b Str.slash).
    + by exists (String Str.slash r0).
    + destruct IH as [y Hy].
      change (String b (r0 +:+ "/")) with (String b r0 +:+ "/"). rewrite Hy.
      by exists (String a y).
Qed.

(** X3.  [addSlashIfNeeded] always ends in a slash.  On a slug without
    doubled slashes it appends a slash, unless the slug ends in one
    already, as the root does, and then it returns the slug itself. *)
Theorem addSlashIfNeeded_cases parentSlug :
  hasDouble Str.slash parentSlug = false →
  (∃ y, addSlashIfNeeded parentSlug = y +:+ "/") ∧
  (endsWith Str.slash parentSlug = false →
   addSlashIfNeeded parentSlug = parentSlug +:+ "/") ∧
  (endsWith Str.slash parentSlug = true →
   addSlashIfNeeded parentSlug = parentSlug).
Proof.
  intros Hd. unfold addSlashIfNeeded. split_and!.
  - apply replaceFirstDouble_ends.
  - intros He. apply replaceFirstDouble_fixed. by rewrite hasDouble_snoc, Hd, He.
  - intros He. by apply replaceFirstDouble_trailing.
Qed.

Lemma addSlashIfNeeded_cases_witness :
  addSlashIfNeeded "/about" = "/about/" ∧ addSlashIfNeeded "/" = "/".
Proof.
  split.
  - exact (proj1 (proj2 (addSlashIfNeeded_cases "/about" eq_refl)) eq_refl).
  - exact (proj2 (proj2 (addSlashIfNeeded_cases "/" eq_refl)) eq_refl).
Defined.

Lemma lastSegment_app y seg :
  Str.has Str.slash seg = false → lastSegment (y +:+ "/" +:+ seg) = seg.
Proof.
  intros Hno. unfold lastSegment.
  change (y +:+ "/" +:+ seg) with (y +:+ String Str.slash seg) at 1.
  rewrite lastIndexOf_app_last by done.
  replace (Z.to_nat (Z.of_nat (String.length y) + 1))
    with (String.length (y +:+ "/")) by (rewrite str_app_length; simpl; lia).
  rewrite <- str_app_assoc. apply str_drop_app.
Qed.

(** ** The new route *)

Lemma addSanitizedTypeData_title req page ty page' :
  addSanitizedTypeData req page ty = Ok page' → title page' = title page.
Proof.
  unfold addSanitizedTypeData. destruct (sanitize ty) as [f|].
  - destruct (f _); [|discriminate]. by intros [= <-].
  - by intros [= <-].
Qed.

Lemma newHandler_inv slugify permissions types st req pg st' :
  newHandler slugify permissions types st req = (Ok pg, st') →
  ∃ parent ty,
    findBySlug st (bParent (body req)) = Some parent ∧
    permissions (user req) "add-page" (Some parent) = None ∧
    determineType types req = Some ty ∧
    title pg = newTitle req ∧
    slug pg = addSlashIfNeeded (bParent (body req)) +:+ slugify (newTitle req) None ∧
    path pg = path parent +:+ "/" +:+ slugify (newTitle req) None ∧
    level pg = (level parent + 1)%Z ∧
    rank pg = getNextRank (topPages (getDescendants "" st parent 1)) ∧
    type pg = name ty ∧
    putPage (slug pg) pg st = Ok st'.
Proof.
  unfold newHandler, newTitle. rewrite getPage_exact.
  destruct (findBySlug st _) as [parent|]; [|done].
  destruct (permissions _ _ _) eqn:Hperm; [done|].
  destruct (determineType types req) as [ty|]; [|done].
  destruct (addSanitizedTypeData _ _ _) as [pg'| |] eqn:Ha; try done.
  destruct (putPage _ _ _) as [st1| |] eqn:Hput; try done.
  intros [= -> ->]. exists parent, ty.
  pose proof (addSanitizedTypeData_title _ _ _ _ Ha) as Ht.
  apply addSanitizedTypeData_type in Ha as (Hty & Hslug & Hpath & Hlevel & Hrank).
  by split_and!.
Qed.

Lemma findBySlug_Some st s p : findBySlug st s = Some p → p ∈ st ∧ slug p = s.
Proof.
  unfold findBySlug. destruct (list_find _ st) as [[i q]|] eqn:Hf; [|done].
  simpl. intros [= ->]. apply list_find_Some in Hf as (Hi & Hs & _).
  split; [by eapply list_elem_of_lookup_2|done].
Qed.

Lemma findBySlug_None st s : findBySlug st s = None → ∀ p, p ∈ st → slug p ≠ s.
Proof.
  unfold findBySlug. destruct (list_find _ st) as [[i q]|] eqn:Hf; [done|].
  intros _. apply list_find_None in Hf. rewrite Forall_forall in Hf. exact Hf.
Qed.

Lemma putPage_lookup page st st' :
  putPage (slug page) page st = Ok st' → findBySlug st' (slug page) = Some page.
Proof.
  unfold putPage, findBySlug.
  destruct (list_find _ st) as [[i old]|] eqn:Hf.
  - destruct (keysFree _ _); [|done]. intros [= <-].
    apply list_find_Some in Hf as (Hi & Hs & Hmin).
    assert (list_find (λ p, slug p = slug page) (<[i:=page]> st) = Some (i, page))
      as ->; [|done].
    apply list_find_Some. split_and!; [|done|].
    + apply list_lookup_insert_eq. by eapply lookup_lt_Some.
    + intros j y Hj Hlt. rewrite list_lookup_insert_ne in Hj by lia.
      by eapply Hmin.
  - destruct (keysFree _ _); [|done]. intros [= <-].
    apply list_find_None in Hf. rewrite Forall_forall in Hf.
    assert (list_find (λ p, slug p = slug page) (st ++ [page])
            = Some (length st, page)) as ->; [|done].
    apply list_find_Some. split_and!; [by apply list_lookup_middle|done|].
    intros j y Hj Hlt. rewrite lookup_app_l in Hj by done.
    apply Hf. by eapply list_elem_of_lookup_2.
Qed.

Lemma putPage_keeps_others s page st st' p :
  putPage s page st = Ok st' → p ∈ st → slug p ≠ s → p ∈ st'.
Proof.
  unfold putPage. destruct (list_find _ st) as [[i old]|] eqn:Hf.
  - destruct (keysFree _ _); [|done]. intros [= <-] Hp Hne.
    apply list_find_Some in Hf as (Hi & Hs & _).
    apply list_elem_of_lookup_1 in Hp as [j Hj].
    apply (list_elem_of_lookup_2 _ j). rewrite list_lookup_insert_ne; [done|].
    intros ->. congruence.
  - destruct (keysFree _ _); [|done]. intros [= <-] Hp _.
    apply elem_of_app. by left.
Qed.

(** X4.  A request to the new route whose parent slug names no page
    ends with "Bad parent", and a request that ends without a page,
    whatever the reason, leaves the store as it was. *)
Theorem new_fails_without_write slugify permissions types st req :
  (findBySlug st (bParent (body req)) = None →
   newHandler slugify permissions types st req = (Err "Bad parent", st)) ∧
  ((∀ pg, (newHandler slugify permissions types st req).1 ≠ Ok pg) →
   (newHandler slugify permissions types st req).2 = st).
Proof.
  split.
  - intros Hno. unfold newHandler. by rewrite getPage_exact, Hno.
  - unfold newHandler. destruct (getPage st _).1.1; [|done].
    destruct (permissions _ _ _); [done|].
    destruct (determineType types req); [|done].
    destruct (addSanitizedTypeData _ _ _) as [pg| |]; try done.
    destruct (putPage _ _ _) as [st1| |]; try done.
    intros H. by destruct (H pg).
Qed.

(** X5.  With a registry whose sanitizing types are not named like
    page fields and a title in ASCII: the page a successful request to
    the new route returns is the page found under its slug afterwards;
    it lies one level below the stored parent and its path is the path
    of the parent, a slash and the slug of its title.  Every other page
    of the store is kept, and nothing else is added. *)
Theorem new_page_is_stored slugify permissions types st req pg st' :
  typeNamesOk types → asciiOnly (bTitle (body req)) = true →
  newHandler slugify permissions types st req = (Ok pg, st') →
  findBySlug st' (slug pg) = Some pg ∧
  (∃ parent, parent ∈ st ∧ slug parent = bParent (body req) ∧
             level pg = (level parent + 1)%Z ∧
             path pg = path parent +:+ "/" +:+ slugify (newTitle req) None) ∧
  (∀ p, p ∈ st → slug p ≠ slug pg → p ∈ st') ∧
  (∀ p, p ∈ st' → p = pg ∨ p ∈ st).
Proof.
  intros _ _
    (parent & ty & Hpar & _ & _ & _ & _ & Hpath & Hlevel & _ & _ & Hput)%newHandler_inv.
  apply findBySlug_Some in Hpar as [Hin Hs]. split_and!.
  - exact (putPage_lookup _ _ _ Hput).
  - by exists parent.
  - intros p Hp Hne. by eapply putPage_keeps_others.
  - intros p Hp. exact (putPage_elem _ _ _ _ _ Hput Hp).
Qed.

Lemma new_page_is_stored_witness :
  findBySlug (sampleStore ++ [samplePage "History" "/about/history" "home/about/history" 2 2])
             "/about/history"
  = Some (samplePage "History" "/about/history" "home/about/history" 2 2).
Proof.
  refine (proj1 (new_page_is_stored sampleSlugify allowAll sampleTypes sampleStore
                   (newRequest "/about" "History" "timeline")
                   (samplePage "History" "/about/history" "home/about/history" 2 2)
                   _ sampleTypes_ok _ _)).
  - by vm_compute.
  - by vm_compute.
Defined.

(** X6.  With a registry whose sanitizing types are not named like
    page fields and a title in ASCII: a page new from a title whose slug
    is not empty and has no slash satisfies invariant (a) in the store
    it is written to: its path is the path of a stored page, a slash and
    the last segment of its slug. *)
Theorem new_page_tracks_slug slugify permissions types st req pg st' :
  typeNamesOk types → asciiOnly (bTitle (body req)) = true →
  Str.has Str.slash (slugify (newTitle req) None) = false →
  slugify (newTitle req) None ≠ "" →
  newHandler slugify permissions types st req = (Ok pg, st') →
  pathTracksSlug st' pg = true.
Proof.
  intros _ _ Hno Hne
    (parent & ty & Hpar & _ & _ & _ & Hslug & Hpath & _ & _ & _ & Hput)%newHandler_inv.
  assert (Hpar' : findBySlug st' (bParent (body req)) = Some parent).
  { eapply findBySlug_putPage; [done| | |exact Hput]; rewrite Hslug;
      by apply addSlashIfNeeded_longer. }
  apply findBySlug_Some in Hpar' as [Hin _].
  unfold pathTracksSlug. apply existsb_exists. exists parent.
  split; [by apply list_elem_of_In|]. apply String.eqb_eq.
  destruct (replaceFirstDouble_ends (bParent (body req))) as [y Hy].
  unfold addSlashIfNeeded in Hslug. rewrite Hy, str_app_assoc in Hslug.
  by rewrite Hslug, lastSegment_app.
Qed.

Lemma new_page_tracks_slug_witness :
  pathTracksSlug
    (sampleStore ++ [samplePage "History" "/about/history" "home/about/history" 2 2])
    (samplePage "History" "/about/history" "home/about/history" 2 2) = true.
Proof.
  refine (new_page_tracks_slug sampleSlugify allowAll sampleTypes sampleStore
            (newRequest "/about" "History" "timeline") _ _ sampleTypes_ok _ _ _ _).
  - by vm_compute.
  - by vm_compute.
  - by vm_compute.
  - by vm_compute.
Defined.

Lemma new_fails_without_write_witness :
  newHandler sampleSlugify allowAll sampleTypes sampleStore
             (newRequest "/nowhere" "History" "default")
  = (Err "Bad parent", sampleStore).
Proof.
  exact (proj1 (new_fails_without_write sampleSlugify allowAll sampleTypes sampleStore
                  (newRequest "/nowhere" "History" "default")) eq_refl).
Defined.

(** ** The invariants of the tree under the three routes *)

Lemma levelsFollowPaths_intro st :
  (∀ p q, p ∈ st → q ∈ st → isAncestorPath (path q) (path p) →
          (level q < level p)%Z) →
  levelsFollowPaths st.
Proof.
  intros H. unfold levelsFollowPaths. apply Forall_forall. intros p Hp.
  apply Forall_forall. intros q Hq Hpre. apply (H p q Hp Hq).
  by apply isAncestorPath_prefix.
Qed.

Lemma isAncestorPath_irrefl a : ¬ isAncestorPath a a.
Proof. intros H%isAncestorPath_shorter. lia. Qed.

Lemma isAncestorPath_child a pp seg :
  Str.has Str.slash seg = false →
  isAncestorPath a (pp +:+ "/" +:+ seg) → a = pp ∨ isAncestorPath a pp.
Proof.
  intros Hno Ha. pose proof (isAncestorPath_length _ _ Ha) as Hlen.
  rewrite parentPath_app in Hlen by done.
  apply (isAncestorPath_chain a pp (pp +:+ "/" +:+ seg)); [done| |done].
  by exists seg.
Qed.

Lemma NoDup_fmap_elem {A B} (f : A → B) (l : list A) x y :
  NoDup (f <$> l) → x ∈ l → y ∈ l → f x = f y → x = y.
Proof.
  intros Hnd [i Hi]%list_elem_of_lookup_1 [j Hj]%list_elem_of_lookup_1 Heq.
  assert (i = j) as ->; [|congruence].
  apply (NoDup_lookup (f <$> l) i j (f x) Hnd); rewrite list_lookup_fmap.
  - by rewrite Hi.
  - by rewrite Hj, Heq.
Qed.

(** X7.  The new route keeps the store a tree, with a registry whose
    sanitizing types are not named like page fields and a title in
    ASCII: when slugs and paths are unique, levels follow paths, the
    slug of the title has no slash and no stored page lies below the
    path that is about to be created, the same holds of the store with
    the new page in it. *)
Theorem new_keeps_tree slugify permissions types st req parent pg st' :
  typeNamesOk types → asciiOnly (bTitle (body req)) = true →
  uniqueKeys st → levelsFollowPaths st →
  Str.has Str.slash (slugify (newTitle req) None) = false →
  findBySlug st (bParent (body req)) = Some parent →
  (∀ p, p ∈ st →
        ¬ isAncestorPath (path parent +:+ "/" +:+ slugify (newTitle req) None) (path p)) →
  newHandler slugify permissions types st req = (Ok pg, st') →
  uniqueKeys st' ∧ levelsFollowPaths st'.
Proof.
  intros _ _ Huniq Hlev Hno Hparent Hbelow
    (parent' & ty & Hpar & _ & _ & _ & _ & Hpath & Hlevel & _ & _ & Hput)%newHandler_inv.
  assert (parent' = parent) as -> by congruence.
  apply findBySlug_Some in Hpar as [Hin _].
  split; [by eapply putPage_unique|].
  apply levelsFollowPaths_intro. intros p q Hp Hq Ha.
  destruct (putPage_elem _ _ _ _ _ Hput Hp) as [->|Hp'];
    destruct (putPage_elem _ _ _ _ _ Hput Hq) as [->|Hq'].
  - by apply isAncestorPath_irrefl in Ha.
  - rewrite Hpath in Ha. rewrite Hlevel.
    destruct (isAncestorPath_child _ _ _ Hno Ha) as [Heq|Hanc].
    + assert (q = parent) as ->; [|lia].
      destruct Huniq as [_ Hnd]. by eapply (NoDup_fmap_elem path st).
    + pose proof (levelsFollowPaths_lt st parent q Hlev Hin Hq' Hanc). lia.
  - rewrite Hpath in Ha. by destruct (Hbelow p Hp').
  - by eapply levelsFollowPaths_lt.
Qed.

Lemma new_keeps_tree_witness :
  levelsFollowPaths
    (sampleStore ++ [samplePage "History" "/about/history" "home/about/history" 2 2]).
Proof.
  refine (proj2 (new_keeps_tree sampleSlugify allowAll sampleTypes sampleStore
                   (newRequest "/about" "History" "timeline") about
                   (samplePage "History" "/about/history" "home/about/history" 2 2)
                   _ sampleTypes_ok _ sampleStore_unique sampleStore_levels _ _ _ _)).
  - by vm_compute.
  - by vm_compute.
  - by vm_compute.
  - intros p Hp Ha%isAncestorPath_prefix.
    repeat (apply elem_of_cons in Hp as [->|Hp]);
      [by vm_compute in Ha..|by apply elem_of_nil in Hp].
  - by vm_compute.
Defined.

Lemma levelsFollowPaths_ext (st st' : Store) :
  (λ p, (path p, level p)) <$> st' = (λ p, (path p, level p)) <$> st →
  levelsFollowPaths st → levelsFollowPaths st'.
Proof.
  intros Heq Hlev. apply levelsFollowPaths_intro.
  assert (Hback : ∀ p, p ∈ st' → ∃ p0, p0 ∈ st ∧ path p0 = path p ∧ level p0 = level p).
  { intros p [i Hi]%list_elem_of_lookup_1.
    assert (Hl : ((λ p, (path p, level p)) <$> st) !! i = Some (path p, level p)).
    { by rewrite <- Heq, list_lookup_fmap, Hi. }
    rewrite list_lookup_fmap in Hl. destruct (st !! i) as [p0|] eqn:H0; [|done].
    injection Hl as Hp Hl. exists p0. split_and!; [|done..].
    by eapply list_elem_of_lookup_2. }
  intros p q Hp Hq Ha.
  destruct (Hback p Hp) as (p0 & Hp0 & Hpp & Hpl).
  destruct (Hback q Hq) as (q0 & Hq0 & Hqp & Hql).
  rewrite <- Hpl, <- Hql. apply (levelsFollowPaths_lt st p0 q0 Hlev Hp0 Hq0).
  by rewrite Hpp, Hqp.
Qed.

Lemma updateSlug_NoDup old new st st' :
  NoDup (slugs st) → updateSlug old new st = Ok st' → NoDup (slugs st').
Proof.
  intros Hnd. unfold updateSlug. destruct (list_find _ st) as [[i p]|].
  - destruct (bool_decide_reflect (new ∈ slugs (delete i st))) as [|Hfree]; [done|].
    intros [= <-]. unfold slugs in *. rewrite list_fmap_insert. simpl.
    apply NoDup_insert_fresh; [done|]. by rewrite <- list_fmap_delete.
  - by intros [= <-].
Qed.

Lemma cascade_NoDup originalSlug slug' ds st :
  NoDup (slugs st) → NoDup (slugs (cascade originalSlug slug' ds st).2).
Proof.
  revert st. induction ds as [|d ds IH]; intros st Hnd; simpl; [done|].
  destruct (updateSlug _ _ st) as [st1| |] eqn:Hu; try done.
  apply IH. by eapply updateSlug_NoDup.
Qed.

Lemma removeBySlug_unique s st : uniqueKeys st → uniqueKeys (removeBySlug s st).
Proof.
  intros [Hs Hp]. unfold removeBySlug, uniqueKeys, slugs, paths.
  split; [eapply sublist_NoDup; [exact Hs|]|eapply sublist_NoDup; [exact Hp|]];
    apply fmap_sublist, sublist_filter.
Qed.

Lemma removeBySlug_levels s st :
  levelsFollowPaths st → levelsFollowPaths (removeBySlug s st).
Proof.
  intros Hlev. apply levelsFollowPaths_intro.
  intros p q [_ Hp]%list_elem_of_filter [_ Hq]%list_elem_of_filter.
  by apply (levelsFollowPaths_lt st).
Qed.

(** X8.  The edit route, with a registry whose sanitizing types are not
    named like page fields, and the delete route keep the store a tree
    whatever their outcome: slugs and paths stay unique, and levels go
    on following paths. *)
Theorem edit_delete_keep_tree slugify permissions types w st req :
  (typeNamesOk types → uniqueKeys (pages w) → levelsFollowPaths (pages w) →
   uniqueKeys (pages (editHandler slugify permissions types w req).2) ∧
   levelsFollowPaths (pages (editHandler slugify permissions types w req).2)) ∧
  (uniqueKeys st → levelsFollowPaths st →
   uniqueKeys (deleteHandler permissions st req).2 ∧
   levelsFollowPaths (deleteHandler permissions st req).2).
Proof.
  split.
  - intros _ Huniq Hlev. split.
    + split.
      * unfold editHandler.
        destruct (getPage (pages w) _).1.1 as [old|]; [|by destruct Huniq].
        destruct (permissions _ _ _); [by destruct Huniq|].
        destruct (determineType types req) as [ty|]; [|by destruct Huniq].
        destruct (_ && _); [by destruct Huniq|].
        destruct (addSanitizedTypeData _ _ _) as [pg| |]; try by destruct Huniq.
        destruct (putPage _ _ _) as [st1| |] eqn:Hput; try by destruct Huniq.
        apply (putPage_unique _ _ _ _ Huniq) in Hput as [Hs1 _].
        assert (Hs2 : NoDup (slugs (updateDescendants (bOriginalSlug (body req))
                       (normalizeSlug slugify (bSlug (body req))) st1).2)).
        { unfold updateDescendants. destruct (String.eqb _ _); [done|].
          by apply cascade_NoDup. }
        by destruct (updateDescendants _ _ st1) as [[e|] st2].
      * unfold paths. rewrite (editHandler_keeps path); [by destruct Huniq|done..].
    + eapply levelsFollowPaths_ext; [|exact Hlev].
      by apply (editHandler_keeps (λ p, (path p, level p))).
  - intros Huniq Hlev. unfold deleteHandler.
    destruct (getPage st _).1.1 as [page|]; [|done].
    destruct (permissions _ _ _); [done|].
    destruct (getAncestors "" st page) as [ancestors|]; [|done].
    destruct (last ancestors); [|done].
    destruct (bool_decide _); [done|]. simpl.
    split; [by apply removeBySlug_unique|by apply removeBySlug_levels].
Qed.

Lemma edit_delete_keep_tree_witness :
  uniqueKeys (pages (editHandler sampleSlugify allowAll sampleTypes sampleWorld
                       (editRequest "/about" "/company" "Company" "default")).2).
Proof.
  exact (proj1 (proj1 (edit_delete_keep_tree sampleSlugify allowAll sampleTypes
                         sampleWorld sampleStore
                         (editRequest "/about" "/company" "Company" "default"))
                      sampleTypes_ok sampleStore_unique sampleStore_levels)).
Defined.

(** ** What the delete route removes *)

Lemma filter_nil_all {A} (P : A → Prop) `{∀ x, Decision (P x)} (l : list A) :
  (∀ x, x ∈ l → ¬ P x) → filter P l = [].
Proof.
  intros Hall. apply elem_of_nil_inv. intros x [Hx Hin]%list_elem_of_filter.
  by apply (Hall x).
Qed.

Lemma getAncestors_elem root st page ancestors a :
  getAncestors root st page = Some ancestors → a ∈ ancestors →
  ∃ p, p ∈ st ∧ isAncestorPath (path p) (path page) ∧
       a = withUrl (root +:+ slug p) p.
Proof.
  unfold getAncestors. destruct (String.eqb _ _); [done|]. intros [= <-].
  intros (p & -> & Hp)%list_elem_of_fmap.
  rewrite merge_sort_Permutation in Hp.
  apply list_elem_of_filter in Hp as [Hanc Hp].
  exists p. split_and!; [done| |done]. by apply ancestorPaths_spec.
Qed.

Lemma getAncestors_root root st page :
  Str.has Str.slash (path page) = false → path page ≠ "" →
  getAncestors root st page = Some [].
Proof.
  intros Hno Hne. unfold getAncestors.
  destruct (String.eqb_spec (path page) ""); [done|].
  rewrite filter_nil_all; [done|].
  intros p _ Hp%ancestorPaths_spec%isAncestorPath_has. congruence.
Qed.

Lemma removeBySlug_gone s st : findBySlug (removeBySlug s st) s = None.
Proof.
  unfold findBySlug. destruct (list_find _ _) as [[i p]|] eqn:Hf; [|done].
  apply list_find_Some in Hf as (Hi & Hs & _).
  apply list_elem_of_lookup_2, list_elem_of_filter in Hi as [Hne _]. done.
Qed.

(** X9.  A delete request that succeeds removed a leaf: the page was
    stored under the slug, no stored page was its child at depth one,
    the slug sent back is the slug of a stored page whose path is an
    ancestor path of the page, and the store afterwards is the store
    before without the pages of that slug, so that the slug is free. *)
Theorem delete_removes_a_leaf permissions st req s st' :
  deleteHandler permissions st req = (Ok s, st') →
  ∃ page parent,
    findBySlug st (bSlug (body req)) = Some page ∧
    parent ∈ st ∧ isAncestorPath (path parent) (path page) ∧ s = slug parent ∧
    (∀ c, c ∈ st → ¬ inSubtree page 1 c) ∧
    st' = removeBySlug (bSlug (body req)) st ∧
    findBySlug st' (bSlug (body req)) = None ∧
    (∀ p, p ∈ st' ↔ p ∈ st ∧ slug p ≠ bSlug (body req)).
Proof.
  unfold deleteHandler. rewrite getPage_exact.
  destruct (findBySlug st _) as [page|] eqn:Hpage; [|done].
  destruct (permissions _ _ _); [done|].
  destruct (getAncestors "" st page) as [ancestors|] eqn:Hanc; [|done].
  destruct (last ancestors) as [parent|] eqn:Hlast; [|done].
  destruct (bool_decide_reflect (top (getDescendants "" st page 1) ≠ []))
    as [|Htop]; [done|].
  intros [= <- <-].
  apply last_Some_elem_of in Hlast.
  destruct (getAncestors_elem _ _ _ _ _ Hanc Hlast) as (p & Hp & Ha & ->).
  pose proof (findBySlug_Some _ _ _ Hpage) as [_ Hslug].
  exists page, p. rewrite Hslug. split_and!; try done.
  - intros c Hc Hsub. apply Htop.
    by eapply nestTop_nonempty, hasChildren_query.
  - apply removeBySlug_gone.
  - intros q. unfold removeBySlug. rewrite list_elem_of_filter. tauto.
Qed.

Lemma delete_removes_a_leaf_witness :
  ∃ page parent,
    findBySlug sampleStore "/contact" = Some page ∧
    parent ∈ sampleStore ∧ isAncestorPath (path parent) (path page) ∧
    "/" = slug parent.
Proof.
  destruct (delete_removes_a_leaf allowAll sampleStore (deleteRequest "/contact")
              "/" [home; about; team]) as (page & parent & H1 & H2 & H3 & H4 & _).
  - by vm_compute.
  - by exists page, parent.
Defined.

(** X10.  A page whose path has no slash has no ancestors and is never
    removed: the delete request leaves the store as it was, and once the
    permission step has let it through it ends with "Cannot remove home
    page", or with a type error when the path is empty. *)
Theorem delete_protects_roots permissions st req page :
  findBySlug st (bSlug (body req)) = Some page →
  Str.has Str.slash (path page) = false →
  (deleteHandler permissions st req).2 = st ∧
  (∀ s, (deleteHandler permissions st req).1 ≠ Ok s) ∧
  (permissions (user req) "add-page" None = None →
   (path page ≠ "" →
    (deleteHandler permissions st req).1 = Err "Cannot remove home page") ∧
   (path page = "" →
    (deleteHandler permissions st req).1 = Thrown "TypeError")).
Proof.
  intros Hpage Hno. unfold deleteHandler. rewrite getPage_exact, Hpage.
  destruct (permissions _ _ _); [by split_and!|].
  destruct (String.eqb_spec (path page) "") as [Hempty|Hne].
  - unfold getAncestors. rewrite Hempty. simpl. by split_and!.
  - rewrite (getAncestors_root "" st page Hno Hne). simpl. by split_and!.
Qed.

Lemma delete_protects_roots_witness :
  (deleteHandler allowAll sampleStore (deleteRequest "/")).1
  = Err "Cannot remove home page".
Proof.
  refine (proj1 (proj2 (proj2 (delete_protects_roots allowAll sampleStore
                                 (deleteRequest "/") home _ _)) eq_refl) _);
    by vm_compute.
Defined.

(** ** The depth of getDescendants *)

(** X11.  With a depth of 0 or less [getDescendants] returns nothing;
    a greater depth returns every page a smaller one returns; and a
    returned page has a longer path than the page asked about, which
    therefore is never among its own descendants. *)
Theorem getDescendants_depth root st page depth :
  ((depth ≤ 0)%Z → getDescendants root st page depth = mkDescendants [] [] []) ∧
  (∀ depth' p, (depth ≤ depth')%Z →
     p ∈ descendantQuery st page depth → p ∈ descendantQuery st page depth') ∧
  (∀ p, p ∈ descendantQuery st page depth →
     (String.length (path page) < String.length (path p))%nat).
Proof.
  split_and!.
  - intros Hd. unfold getDescendants, descendantQuery.
    rewrite filter_nil_all; [done|]. intros p _ [_ Hl]. lia.
  - intros depth' p Hle. rewrite !descendantQuery_elem. unfold inSubtree.
    intros (? & ? & ? & ?). split_and!; [done..|lia].
  - intros p [_ [Hpre _]]%descendantQuery_elem.
    by apply isAncestorPath_prefix, isAncestorPath_shorter in Hpre.
Qed.

Lemma getDescendants_depth_witness :
  getDescendants "" sampleStore home 0 = mkDescendants [] [] [].
Proof.
  refine (proj1 (getDescendants_depth "" sampleStore home 0) _). done.
Defined.

(** ** serve *)

Lemma loadStep_slugs st items req :
  loadStep st (LoadSlug <$> items) req = (None, loadSlugs st items req).
Proof.
  revert req. induction items as [|item items IH]; intros req; [done|].
  simpl. by rewrite IH.
Qed.

Lemma loadSlugs_fields st items req :
  sPage (loadSlugs st items req) = sPage req ∧
  sSlug (loadSlugs st items req) = sSlug req ∧
  sType (loadSlugs st items req) = sType req ∧
  sLoginRequired (loadSlugs st items req) = sLoginRequired req ∧
  sInsufficient (loadSlugs st items req) = sInsufficient req.
Proof.
  revert req. induction items as [|item items IH]; intros req; [done|].
  unfold loadSlugs in *. simpl. by destruct (IH (withExtra req item (getPage st item).1.1))
    as (-> & -> & -> & -> & ->).
Qed.

Lemma main_fields types req req' err :
  sPage req' = sPage req → sType req' = sType req →
  sLoginRequired req' = sLoginRequired req → sInsufficient req' = sInsufficient req →
  main types req' err = main types req err.
Proof. unfold main. by intros -> -> -> ->. Qed.

Lemma main_loadSlugs types st items req err :
  main types (loadSlugs st items req) err = main types req err.
Proof.
  destruct (loadSlugs_fields st items req) as (? & ? & ? & ? & ?).
  by apply main_fields.
Qed.

(** X12.  Loaders given as slugs, none of them the slug "page" (whose
    entry [_.defaults] could put in the place of a [page] argument that
    is [null]), have no part in what a request settles: a redirect, or
    the type that is rendered, the status and the [page] argument of the
    template.  Without a notfound handler, [serve] answers as it does
    with no loaders at all. *)
Theorem serve_slug_loaders permissions types root depth items w u param :
  "page" ∉ items →
  serve permissions types (mkServeOptions root depth (LoadSlug <$> items) None) w u param
  = serve permissions types (mkServeOptions root depth [] None) w u param.
Proof.
  intros _.
  set (o1 := mkServeOptions root depth (LoadSlug <$> items) None).
  set (o2 := mkServeOptions root depth [] None).
  assert (Hreq : relativesStep o1 (pages w)
                   (permissionsStep permissions (pageStep o1 (pages w) u param))
                 = relativesStep o2 (pages w)
                     (permissionsStep permissions (pageStep o2 (pages w) u param)))
    by done.
  unfold serve. rewrite Hreq.
  set (req := relativesStep o2 _ _).
  change (oLoad o1) with (LoadSlug <$> items). rewrite loadStep_slugs.
  change (oLoad o2) with (@nil Loader). cbn [loadStep].
  destruct (loadSlugs_fields (pages w) items req) as (-> & -> & _).
  by rewrite main_loadSlugs.
Qed.

Lemma serve_slug_loaders_witness :
  serve allowAll sampleTypes (mkServeOptions "" None (LoadSlug <$> ["global"; "/about"]) None)
        sampleWorld None "contact"
  = serve allowAll sampleTypes (mkServeOptions "" None [] None) sampleWorld None "contact".
Proof.
  apply (serve_slug_loaders allowAll sampleTypes "" None ["global"; "/about"]
           sampleWorld None "contact").
  apply (bool_decide_unpack _). by vm_compute.
Defined.

Lemma serve_exact permissions types o w u param page items :
  findBySlug (pages w) (requestSlug param) = Some page →
  oLoad o = LoadSlug <$> items →
  serve permissions types o w u param
  = Rendered (main types
                (checkView permissions
                   (mkServeReq u (requestSlug param)
                      (Some (withUrl (oRoot o +:+ slug page) page))
                      (Some (withUrl (oRoot o +:+ slug page) page)) ""
                      None None false false false None []))
                None).
Proof.
  intros Hpage Hload. unfold serve. rewrite Hload, loadStep_slugs.
  unfold pageStep, getPage. fold (requestSlug param). rewrite Hpage. simpl.
  set (req0 := mkServeReq _ _ _ _ _ _ _ _ _ _ _ _).
  assert (Hp : sPage (loadSlugs (pages w) items
                        (relativesStep o (pages w) (permissionsStep permissions req0)))
               = Some (withUrl (oRoot o +:+ slug page) page)).
  { destruct (loadSlugs_fields (pages w) items
                (relativesStep o (pages w) (permissionsStep permissions req0)))
      as (-> & _).
    unfold relativesStep, permissionsStep, checkEdit, checkView. simpl.
    by destruct (permissions u "view-page" _), u. }
  rewrite Hp. f_equal. rewrite main_loadSlugs. apply main_fields;
    unfold relativesStep, permissionsStep, checkEdit, checkView; simpl;
    by destruct (permissions u "view-page" _), u.
Qed.

(** X13.  A visitor who is refused the view of the page stored under
    the requested address never gets the page: with loaders given as
    slugs, none of them the slug "page", the answer is the login page
    for an anonymous visitor and the insufficient page for a signed-in
    one, with status 200 and a [page] argument that is [null]. *)
Theorem serve_refused_hides_page permissions types o w u param page items e :
  findBySlug (pages w) (requestSlug param) = Some page →
  oLoad o = LoadSlug <$> items → "page" ∉ items →
  permissions u "view-page" (Some (withUrl (oRoot o +:+ slug page) page)) = Some e →
  serve permissions types o w u param
  = Rendered (mkSelection (if u is Some _ then "insufficient" else "loginRequired")
                          200 None).
Proof.
  intros Hpage Hload _ Hperm. rewrite (serve_exact _ _ _ _ _ _ _ _ Hpage Hload).
  unfold checkView. simpl. rewrite Hperm. by destruct u.
Qed.

Lemma serve_refused_hides_page_witness :
  serve membersOnly sampleTypes (mkServeOptions "" None [LoadSlug "global"] None)
        sampleWorld None "about"
  = Rendered (mkSelection "loginRequired" 200 None).
Proof.
  refine (serve_refused_hides_page membersOnly sampleTypes
            (mkServeOptions "" None [LoadSlug "global"] None)
            sampleWorld None "about" about ["global"] "Forbidden" _ _ _ _);
    [by vm_compute..|apply (bool_decide_unpack _); by vm_compute|by vm_compute].
Defined.

(** X14.  A visitor who may view the page stored under the requested
    address gets that page, with its url made of the root and its slug,
    under the type of the page when that type is registered and under
    the default type otherwise, with status 200. *)
Theorem serve_renders_page permissions types o w u param page items :
  findBySlug (pages w) (requestSlug param) = Some page →
  oLoad o = LoadSlug <$> items →
  permissions u "view-page" (Some (withUrl (oRoot o +:+ slug page) page)) = None →
  serve permissions types o w u param
  = Rendered (mkSelection (if registered types (type page) then type page else "default")
                          200 (Some (withUrl (oRoot o +:+ slug page) page))).
Proof.
  intros Hpage Hload Hperm. rewrite (serve_exact _ _ _ _ _ _ _ _ Hpage Hload).
  unfold checkView. simpl. by rewrite Hperm.
Qed.

Lemma serve_renders_page_witness :
  serve membersOnly sampleTypes (mkServeOptions "/site" None [] None)
        sampleWorld (Some "ann") "/about/team"
  = Rendered (mkSelection "default" 200 (Some (withUrl "/site/about/team" team))).
Proof.
  refine (serve_renders_page membersOnly sampleTypes
            (mkServeOptions "/site" None [] None)
            sampleWorld (Some "ann") "/about/team" team [] _ _ _);
    by vm_compute.
Defined.

Lemma editHandler_redirects slugify permissions types w req pg w' :
  editHandler slugify permissions types w req = (Ok pg, w') →
  redirects w' = <[bOriginalSlug (body req) := normalizeSlug slugify (bSlug (body req))]>
                   (redirects w).
Proof.
  unfold editHandler.
  destruct (getPage (pages w) _).1.1 as [old|]; [|done].
  destruct (permissions _ _ _); [done|].
  destruct (determineType types req) as [ty|]; [|done].
  destruct (_ && _); [done|].
  destruct (addSanitizedTypeData _ _ _) as [pg'| |]; try done.
  destruct (putPage _ _ _) as [st1| |]; try done.
  destruct (updateDescendants _ _ st1) as [[e|] st2]; [done|].
  by intros [= <- <-].
Qed.

Lemma steps_fields permissions o st req :
  sPage (relativesStep o st (permissionsStep permissions req)) = sPage req ∧
  sSlug (relativesStep o st (permissionsStep permissions req)) = sSlug req.
Proof.
  unfold relativesStep, permissionsStep, checkEdit, checkView.
  destruct (sBestPage req) as [best|] eqn:Hb; simpl; [|by rewrite Hb].
  destruct (permissions (sUser req) "view-page" (Some best)); [|by rewrite Hb].
  destruct (sUser req); simpl; by rewrite Hb.
Qed.

(** X15.  After a successful edit a request for the original slug, when
    no page is stored under it any more, is answered by a redirect to
    the root followed by the new slug (loaders given as slugs, no
    notfound handler). *)
Theorem renamed_address_redirects slugify permissions types w req pg w' o u param items :
  editHandler slugify permissions types w req = (Ok pg, w') →
  requestSlug param = bOriginalSlug (body req) →
  findBySlug (pages w') (bOriginalSlug (body req)) = None →
  oLoad o = LoadSlug <$> items → oNotfound o = None →
  serve permissions types o w' u param
  = Redirected (oRoot o +:+ normalizeSlug slugify (bSlug (body req))).
Proof.
  intros Hedit Hparam Hnone Hload Hnf. unfold serve.
  rewrite Hload, loadStep_slugs, Hnf.
  set (req0 := pageStep o (pages w') u param).
  assert (H0 : sPage req0 = None ∧ sSlug req0 = bOriginalSlug (body req)).
  { unfold req0, pageStep, getPage. fold (requestSlug param).
    rewrite Hparam, Hnone. by destruct (foldl longer None _). }
  destruct H0 as [Hp Hs].
  destruct (loadSlugs_fields (pages w') items
              (relativesStep o (pages w') (permissionsStep permissions req0)))
    as (-> & -> & _).
  destruct (steps_fields permissions o (pages w') req0) as [-> ->].
  rewrite Hp, Hs, (editHandler_redirects _ _ _ _ _ _ _ Hedit).
  by rewrite lookup_insert_eq.
Qed.

Lemma renamed_address_redirects_witness :
  serve allowAll sampleTypes (mkServeOptions "" None [] None)
        (mkWorld [home; samplePage "Company" "/company" "home/about" 1 1; contact;
                  samplePage "Team" "/company/team" "home/about/team" 2 1]
                 (<["/about" := "/company"]> ∅))
        None "about"
  = Redirected "/company".
Proof.
  refine (renamed_address_redirects sampleSlugify allowAll sampleTypes sampleWorld
            (editRequest "/about" "/company" "Company" "default")
            (mkPage "Company" "/company" "home/about" 1 1 "default" "{}" [] None)
            _ (mkServeOptions "" None [] None) None "about" [] _ _ _ _ _);
    by vm_compute.
Defined.

(** ** The registry *)

Lemma getType_app types1 types2 n :
  getType (types1 ++ types2) n
  = match getType types1 n with
    | Some t => Some t
    | None => getType types2 n
    end.
Proof.
  unfold getType. induction types1 as [|t types1 IH]; simpl; [done|].
  by destruct (String.eqb (name t) n).
Qed.

(** X16.  A type registered under a name that is already in use is
    never returned: [getType] keeps answering with the type that was
    registered first. *)
Theorem addType_first_wins r t n t0 :
  getType (regTypes r) n = Some t0 →
  getType (regTypes (addType t r)) n = Some t0.
Proof.
  intros H. unfold addType. simpl. by rewrite getType_app, H.
Qed.

Lemma addType_first_wins_witness :
  getType (regTypes (addType (mkType "default" (Some "blog") (Some Clean))
                             (mkRegistry ∅ sampleTypes))) "default"
  = Some (mkType "default" None None).
Proof.
  apply (addType_first_wins (mkRegistry ∅ sampleTypes)). reflexivity.
Defined.

(** X17.  A type registered under a fresh name, in a group that is
    bound to an object, is found under its name with its own group
    name; its sanitizer is its own when it has one and the sanitizer of
    the group otherwise. *)
Theorem addType_inherits r t g grp :
  getType (regTypes r) (name t) = None →
  group t = Some g →
  regGroups r !! g = Some (Some grp) →
  ∃ t', getType (regTypes (addType t r)) (name t) = Some t'
        ∧ name t' = name t ∧ group t' = Some g
        ∧ sanitize t' = match sanitize t with
                        | Some f => Some f
                        | None => gSanitize grp
                        end.
Proof.
  intros Hfresh Hg Hgrp. unfold addType. simpl.
  rewrite getType_app, Hfresh. unfold getType. simpl.
  rewrite String.eqb_refl. eexists. split; [done|]. simpl.
  rewrite Hg. simpl. rewrite Hgrp. simpl.
  split; [done|]. split; [by destruct (gGroup grp)|].
  by destruct (sanitize t).
Qed.

Lemma addType_inherits_witness :
  ∃ t', getType (regTypes (addType (mkType "post" (Some "blog") None)
                             (mkRegistry (<["blog" := Some (mkGroup None (Some Clean))]> ∅)
                                         sampleTypes)))
                "post" = Some t'
        ∧ name t' = "post" ∧ group t' = Some "blog"
        ∧ sanitize t' = Some Clean.
Proof.
  refine (addType_inherits
            (mkRegistry (<["blog" := Some (mkGroup None (Some Clean))]> ∅) sampleTypes)
            (mkType "post" (Some "blog") None) "blog" (mkGroup None (Some Clean)) _ _ _);
    by vm_compute.
Defined.

Lemma eachGroup_unbound groups r r' :
  eachGroup groups r = Ok r' →
  (∀ g, mjoin (regGroups r !! g) = None) →
  regTypes r' = regTypes r ∧ (∀ g, mjoin (regGroups r' !! g) = None).
Proof.
  revert r. induction groups as [|g0 groups IH]; intros r; simpl.
  - by intros [= <-].
  - unfold addGroup. destruct (String.eqb g0 "length"); [done|].
    intros H Hr. apply IH in H; [done|]. simpl. intros g.
    destruct (decide (g0 = g)) as [->|Hne].
    + by rewrite lookup_insert_eq.
    + by rewrite lookup_insert_ne.
Qed.

Lemma eachGroup_throws groups r :
  eachGroup groups r = Thrown "RangeError" ↔ "length" ∈ groups.
Proof.
  revert r. induction groups as [|g0 groups IH]; intros r; simpl.
  - split; [done|]. by intros ?%elem_of_nil.
  - unfold addGroup. rewrite elem_of_cons.
    destruct (String.eqb g0 "length") eqn:Hg.
    + apply String.eqb_eq in Hg as ->. split; [by left|done].
    + apply String.eqb_neq in Hg. rewrite IH. split; [by right|].
      by intros [?|?].
Qed.

Lemma eachGroup_ok groups r :
  "length" ∉ groups → ∃ r', eachGroup groups r = Ok r'.
Proof.
  revert r. induction groups as [|g0 groups IH]; intros r Hn; simpl.
  - by eexists.
  - unfold addGroup. apply not_elem_of_cons in Hn as [Hne Hn].
    destruct (String.eqb g0 "length") eqn:Hg.
    + apply String.eqb_eq in Hg. by subst.
    + by apply IH.
Qed.

Lemma addType_unbound types r :
  (∀ g, mjoin (regGroups r !! g) = None) →
  regTypes (foldl (λ r type', addType type' r) r types) = regTypes r ++ types
  ∧ regGroups (foldl (λ r type', addType type' r) r types) = regGroups r.
Proof.
  revert r. induction types as [|t types IH]; intros r Hr; simpl.
  - by rewrite app_nil_r.
  - destruct (IH (addType t r)) as [-> ->]; [done|].
    unfold addType. simpl. rewrite Hr. simpl.
    split; [|done]. rewrite <-app_assoc. simpl. do 2 f_equal.
    destruct t as [n [g|] [f|]]; done.
Qed.

(** X18.  The groups listed in the options of the constructor give
    nothing to the types: whenever the constructor comes through, the
    registered types are the given ones unchanged (the one default type
    when none are given) and every group name is unbound or bound to
    [undefined].  It throws exactly when "length" is among the listed
    groups. *)
Theorem construct_ignores_groups optTypes optGroups :
  (∀ r, construct optTypes optGroups = Ok r →
        regTypes r = default [mkType "default" None None] optTypes
        ∧ ∀ g, mjoin (regGroups r !! g) = None)
  ∧ ("length" ∉ default [] optGroups → ∃ r, construct optTypes optGroups = Ok r)
  ∧ ("length" ∈ default [] optGroups →
     construct optTypes optGroups = Thrown "RangeError").
Proof.
  unfold construct. split; [|split].
  - intros r. destruct (eachGroup _ _) as [r0| |] eqn:He; [|done..].
    intros [= <-]. apply eachGroup_unbound in He as [Ht Hg]; [|done].
    destruct (addType_unbound (default [mkType "default" None None] optTypes) r0 Hg)
      as [-> ->].
    by rewrite Ht.
  - intros Hn. destruct (eachGroup_ok _ (mkRegistry ∅ []) Hn) as [r0 ->]. by eexists.
  - intros Hin. apply (eachGroup_throws _ (mkRegistry ∅ [])) in Hin. by rewrite Hin.
Qed.

Lemma construct_ignores_groups_witness :
  ∃ r, construct (Some [mkType "post" (Some "blog") None]) (Some ["blog"]) = Ok r
       ∧ regTypes r = [mkType "post" (Some "blog") None].
Proof.
  destruct (construct_ignores_groups (Some [mkType "post" (Some "blog") None])
                                     (Some ["blog"])) as (Hok & Hex & _).
  destruct Hex as [r Hr].
  - apply (bool_decide_unpack _). by vm_compute.
  - exists r. split; [done|]. by apply Hok.
Defined.

(** X19.  When no type is registered under the name "default" and none
    under the type named in the request, a request for a new page that
    finds its parent and passes the permission check, and an edit that
    finds its page and passes the permission check, both end in a
    thrown TypeError and write nothing. *)
Theorem unregistered_type_throws slugify permissions types w req :
  getType types (bType (body req)) = None →
  getType types "default" = None →
  (∀ parent, (getPage (pages w) (bParent (body req))).1.1 = Some parent →
             permissions (user req) "add-page" (Some parent) = None →
             newHandler slugify permissions types (pages w) req
             = (Thrown "TypeError", pages w))
  ∧ (∀ page, (getPage (pages w) (bOriginalSlug (body req))).1.1 = Some page →
             permissions (user req) "edit" (Some page) = None →
             editHandler slugify permissions types w req = (Thrown "TypeError", w)).
Proof.
  intros Ht Hd. split.
  - intros parent Hp Hperm. unfold newHandler, determineType.
    by rewrite Hp, Hperm, Ht, Hd.
  - intros page Hp Hperm. unfold editHandler, determineType.
    by rewrite Hp, Hperm, Ht, Hd.
Qed.

Lemma unregistered_type_throws_witness :
  newHandler sampleSlugify allowAll [mkType "blog" None None] sampleStore
             (newRequest "/about" "History" "default")
  = (Thrown "TypeError", sampleStore).
Proof.
  destruct (unregistered_type_throws sampleSlugify allowAll [mkType "blog" None None]
              sampleWorld (newRequest "/about" "History" "default")) as [Hnew _];
    [reflexivity..|].
  apply (Hnew about); reflexivity.
Defined.

(** ** Titles *)

Lemma trimRight_idem s : Str.trimRight (Str.trimRight s) = Str.trimRight s.
Proof.
  induction s as [|a r IH]; simpl; [done|].
  destruct (Str.trimRight r) as [|b r'] eqn:Hr.
  - destruct (Str.isSpace a) eqn:Ha; simpl; [done|]. by rewrite Ha.
  - simpl in *. by rewrite IH.
Qed.

Lemma trimLeft_head s :
  match Str.trimLeft s with
  | EmptyString => True
  | String a _ => Str.isSpace a = false
  end.
Proof.
  induction s as [|a r IH]; simpl; [done|].
  by destruct (Str.isSpace a) eqn:Ha.
Qed.

Lemma trimRight_head s :
  match s with
  | EmptyString => True
  | String a _ => Str.isSpace a = false
  end →
  Str.trimLeft (Str.trimRight s) = Str.trimRight s.
Proof.
  destruct s as [|a r]; [done|]. intros Ha. cbn [Str.trimRight].
  destruct (Str.trimRight r); rewrite ?Ha; cbn [Str.trimLeft]; by rewrite Ha.
Qed.

Lemma trim_idem s : Str.trim (Str.trim s) = Str.trim s.
Proof.
  unfold Str.trim. rewrite trimRight_head by apply trimLeft_head.
  apply trimRight_idem.
Qed.

Lemma trimLeft_ascii s : asciiOnly s = true → asciiOnly (Str.trimLeft s) = true.
Proof.
  induction s as [|a r IH]; [done|]. cbn [Str.trimLeft].
  destruct (Str.isSpace a); [|done].
  cbn [asciiOnly]. intros [_ Hr]%andb_true_iff. by apply IH.
Qed.

Lemma trimRight_ascii s : asciiOnly s = true → asciiOnly (Str.trimRight s) = true.
Proof.
  induction s as [|a r IH]; [done|]. cbn [asciiOnly Str.trimRight].
  intros [Ha Hr]%andb_true_iff. specialize (IH Hr).
  destruct (Str.trimRight r) as [|b r'].
  - destruct (Str.isSpace a); [done|]. cbn [asciiOnly]. by rewrite Ha.
  - cbn [asciiOnly] in *. by rewrite Ha, IH.
Qed.

Lemma default_title_trimmed s fallback :
  fallback ≠ "" → Str.trim fallback = fallback → asciiOnly fallback = true →
  asciiOnly s = true →
  let t := if String.eqb (Str.trim s) "" then fallback else Str.trim s in
  t ≠ "" ∧ Str.trim t = t ∧ asciiOnly t = true.
Proof.
  intros Hne Hf Hfa Hs. simpl. destruct (String.eqb _ "") eqn:He; [done|].
  apply String.eqb_neq in He. split; [done|]. split; [apply trim_idem|].
  by apply trimRight_ascii, trimLeft_ascii.
Qed.

(** X20.  With a registry whose sanitizing types are not named like
    page fields and a submitted title in ASCII: the title that a
    successful request to the new or to the edit route stores is never
    empty, is in ASCII and has no white space at its start or its end;
    it is the submitted title trimmed, or the stand-in title of the
    route when nothing is left of it. *)
Theorem stored_titles_trimmed slugify permissions types w req pg :
  typeNamesOk types → asciiOnly (bTitle (body req)) = true →
  (∀ st', newHandler slugify permissions types (pages w) req = (Ok pg, st') →
          title pg ≠ "" ∧ Str.trim (title pg) = title pg ∧ asciiOnly (title pg) = true
          ∧ (Str.trim (bTitle (body req)) ≠ "" → title pg = Str.trim (bTitle (body req)))
          ∧ (Str.trim (bTitle (body req)) = "" → title pg = "New Page"))
  ∧ (∀ w', editHandler slugify permissions types w req = (Ok pg, w') →
           title pg ≠ "" ∧ Str.trim (title pg) = title pg ∧ asciiOnly (title pg) = true
           ∧ (Str.trim (bTitle (body req)) ≠ "" → title pg = Str.trim (bTitle (body req)))
           ∧ (Str.trim (bTitle (body req)) = "" → title pg = "Untitled Page")).
Proof.
  intros _ Hascii. split.
  - intros st'. unfold newHandler.
    destruct (getPage (pages w) _).1.1 as [parent|]; [|done].
    destruct (permissions _ _ _); [done|].
    destruct (determineType types req) as [ty|]; [|done].
    destruct (addSanitizedTypeData _ _ _) as [pg'| |] eqn:Ha; try done.
    apply addSanitizedTypeData_title in Ha. simpl in Ha.
    destruct (putPage _ _ _) as [st1| |]; try done.
    intros [= -> _]. rewrite Ha.
    destruct (default_title_trimmed (bTitle (body req)) "New Page")
      as (H1 & H2 & H3); [done..|].
    split_and!; [done..| |].
    + intros Hne. apply String.eqb_neq in Hne. by rewrite Hne.
    + by intros ->.
  - intros w'. unfold editHandler.
    destruct (getPage (pages w) _).1.1 as [old|]; [|done].
    destruct (permissions _ _ _); [done|].
    destruct (determineType types req) as [ty|]; [|done].
    destruct (_ && _); [done|].
    destruct (addSanitizedTypeData _ _ _) as [pg'| |] eqn:Ha; try done.
    apply addSanitizedTypeData_title in Ha. simpl in Ha.
    destruct (putPage _ _ _) as [st1| |]; try done.
    destruct (updateDescendants _ _ st1) as [[e|] st2]; [done|].
    intros [= -> _]. rewrite Ha.
    destruct (default_title_trimmed (bTitle (body req)) "Untitled Page")
      as (H1 & H2 & H3); [done..|].
    split_and!; [done..| |].
    + intros Hne. apply String.eqb_neq in Hne. by rewrite Hne.
    + by intros ->.
Qed.

Lemma stored_titles_trimmed_witness :
  title (mkPage "Our History" "/about/our-history" "home/about/our-history" 2 2
                "default" "{}" [] None) ≠ ""
  ∧ Str.trim "Our History" = "Our History".
Proof.
  destruct (stored_titles_trimmed sampleSlugify allowAll sampleTypes sampleWorld
              (newRequest "/about" "  Our History " "default")
              (mkPage "Our History" "/about/our-history" "home/about/our-history" 2 2
                      "default" "{}" [] None)) as [Hnew _].
  - apply sampleTypes_ok.
  - by vm_compute.
  - destruct (Hnew (sampleStore ++
                    [mkPage "Our History" "/about/our-history" "home/about/our-history" 2 2
                            "default" "{}" [] None])) as (H1 & H2 & _).
    + by vm_compute.
    + split; [exact H1|exact H2].
Defined.

(** X21.  A request for an address under which nothing is stored and
    for which no redirect is recorded leaves the [page] argument of the
    template [null] (loaders given as slugs, none of them the slug
    "page", and no notfound handler).  It is answered with the notfound
    type and status 404, unless a page stored under a leading part of
    the address refuses the view to the visitor: then the answer is the
    login page or the insufficient page with status 200. *)
Theorem serve_missing_address permissions types o w u param items :
  findBySlug (pages w) (requestSlug param) = None →
  redirects w !! requestSlug param = None →
  oLoad o = LoadSlug <$> items → "page" ∉ items → oNotfound o = None →
  serve permissions types o w u param
  = Rendered
      match (getPage (pages w) (requestSlug param)).1.2 with
      | Some best =>
          match permissions u "view-page" (Some (withUrl (oRoot o +:+ slug best) best)) with
          | Some _ =>
              mkSelection (if u is Some _ then "insufficient" else "loginRequired") 200 None
          | None => mkSelection "notfound" 404 None
          end
      | None => mkSelection "notfound" 404 None
      end.
Proof.
  intros Hnone Hred Hload _ Hnf. unfold serve.
  rewrite Hload, loadStep_slugs, Hnf.
  set (req0 := pageStep o (pages w) u param).
  assert (H0 : sPage req0 = None ∧ sSlug req0 = requestSlug param).
  { unfold req0, pageStep, getPage. fold (requestSlug param).
    rewrite Hnone. by destruct (foldl longer None _). }
  destruct H0 as [Hp Hs].
  destruct (loadSlugs_fields (pages w) items
              (relativesStep o (pages w) (permissionsStep permissions req0)))
    as (-> & -> & _).
  destruct (steps_fields permissions o (pages w) req0) as [-> ->].
  rewrite Hp, Hs, Hred, main_loadSlugs. f_equal.
  unfold req0, pageStep, getPage. fold (requestSlug param). rewrite Hnone.
  destruct (foldl longer None _) as [best|]; simpl; [|done].
  unfold relativesStep, permissionsStep, checkEdit, checkView. simpl.
  destruct (permissions u "view-page" _); [|done]. by destruct u.
Qed.

Lemma serve_missing_address_witness :
  serve membersOnly sampleTypes (mkServeOptions "" None [] None) sampleWorld None
        "/about/careers"
  = Rendered (mkSelection "loginRequired" 200 None).
Proof.
  refine (serve_missing_address membersOnly sampleTypes (mkServeOptions "" None [] None)
            sampleWorld None "/about/careers" [] _ _ _ _ _);
    [by vm_compute..|apply (bool_decide_unpack _); by vm_compute|by vm_compute].
Defined.

(** ** Ancestors and descendants *)

(** X22.  The two tree queries agree: a stored page that
    [getDescendants] returns for [p], at whatever depth, has [p] among
    the ancestors that [getAncestors] returns for it; and while levels
    follow paths, a stored page that has [p] among its ancestors is
    returned for [p] as soon as the depth reaches the difference of
    their levels. *)
Theorem ancestors_descendants_agree root st p q :
  p ∈ st → q ∈ st →
  (∀ depth, q ∈ descendantQuery st p depth →
     ∃ anc, getAncestors root st q = Some anc ∧ withUrl (root +:+ slug p) p ∈ anc)
  ∧ (levelsFollowPaths st →
     ∀ anc depth, getAncestors root st q = Some anc →
       withUrl (root +:+ slug p) p ∈ anc → (level q - level p ≤ depth)%Z →
       q ∈ descendantQuery st p depth).
Proof.
  intros Hp Hq. split.
  - intros depth [_ [Hpre _]]%descendantQuery_elem.
    apply isAncestorPath_prefix in Hpre. unfold getAncestors.
    destruct (String.eqb (path q) "") eqn:He.
    + apply String.eqb_eq in He. apply isAncestorPath_shorter in Hpre.
      rewrite He in Hpre. simpl in Hpre. lia.
    + eexists. split; [done|]. apply list_elem_of_fmap. exists p. split; [done|].
      rewrite merge_sort_Permutation. apply list_elem_of_filter.
      split; [|done]. by apply ancestorPaths_spec.
  - intros Hlev anc depth. unfold getAncestors.
    destruct (String.eqb (path q) ""); [done|]. intros [= <-].
    intros (p' & Heq & Hin)%list_elem_of_fmap Hd.
    rewrite merge_sort_Permutation in Hin.
    apply list_elem_of_filter in Hin as [Hanc Hp'].
    apply ancestorPaths_spec in Hanc.
    assert (Hpath : path p' = path p) by (by destruct p, p'; injection Heq).
    assert (Hlevel : level p' = level p) by (by destruct p, p'; injection Heq).
    apply descendantQuery_elem. split; [done|]. split.
    + apply isAncestorPath_prefix. by rewrite <-Hpath.
    + pose proof (levelsFollowPaths_lt st q p' Hlev Hq Hp' Hanc). lia.
Qed.

Lemma ancestors_descendants_agree_witness :
  ∃ anc, getAncestors "" sampleStore team = Some anc ∧ withUrl "/" home ∈ anc.
Proof.
  destruct (ancestors_descendants_agree "" sampleStore home team) as [Hdown _].
  - apply (bool_decide_unpack _). by vm_compute.
  - apply (bool_decide_unpack _). by vm_compute.
  - apply (Hdown 2%Z). apply descendantQuery_elem. split.
    + apply (bool_decide_unpack _). by vm_compute.
    + apply (bool_decide_unpack _). by vm_compute.
Defined.

(** ** Failed edits *)








(** ** A rename to an address below the page *)

Lemma editHandler_renamed slugify permissions types w req pg w' :
  uniqueKeys (pages w) →
  Str.has Str.dollar (normalizeSlug slugify (bSlug (body req))) = false →
  bOriginalSlug (body req) ≠ normalizeSlug slugify (bSlug (body req)) →
  editHandler slugify permissions types w req = (Ok pg, w') →
  slug pg = normalizeSlug slugify (bSlug (body req)) ∧
  ∃ st1, putPage (bOriginalSlug (body req)) pg (pages w) = Ok st1 ∧
         pages w' = rewriteSlug (bOriginalSlug (body req))
                                (normalizeSlug slugify (bSlug (body req))) <$> st1 ∧
         NoDup (slugs (pages w')).
Proof.
  intros Huniq Hno Hne. unfold editHandler.
  destruct (getPage (pages w) _).1.1 as [old|]; [|done].
  destruct (permissions _ _ _); [done|].
  destruct (determineType types req) as [ty|]; [|done].
  destruct (_ && _); [done|].
  destruct (addSanitizedTypeData _ _ _) as [pg'| |] eqn:Ha; try done.
  apply addSanitizedTypeData_type in Ha as (_ & Hslug & _). simpl in Hslug.
  destruct (putPage _ _ _) as [st1| |] eqn:Hput; try done.
  destruct (updateDescendants _ _ st1) as [[e|] st2] eqn:Hcas; [done|].
  intros [= <- <-]. simpl. split; [done|]. exists st1. split; [done|].
  pose proof (putPage_unique _ _ _ _ Huniq Hput) as [Hnd1 _].
  unfold updateDescendants in Hcas.
  destruct (String.eqb_spec (bOriginalSlug (body req))
              (normalizeSlug slugify (bSlug (body req)))) as [Heq|_]; [done|].
  apply cascade_spec in Hcas as [Hst2 Hnd2]; try done.
  - split; [|done]. rewrite Hst2.
    apply list_fmap_ext. intros i p Hp.
    destruct (decide (slug p ∈ _)) as [|Hnin]; [done|].
    unfold rewriteSlug.
    destruct (String.prefix _ (slug p)) eqn:Hpre; [|done].
    exfalso. apply Hnin. apply list_elem_of_fmap_2, list_elem_of_filter.
    split; [done|]. by eapply list_elem_of_lookup_2.
  - eapply sublist_NoDup; [exact Hnd1|]. apply fmap_sublist, sublist_filter.
  - intros d [Hpre Hd]%list_elem_of_filter. split; [|done].
    by apply list_elem_of_fmap_2.
Qed.

Lemma findBySlug_unique st p :
  NoDup (slugs st) → p ∈ st → findBySlug st (slug p) = Some p.
Proof.
  intros Hnd Hp. unfold findBySlug.
  destruct (list_find _ st) as [[i q]|] eqn:Hf; simpl.
  - apply list_find_Some in Hf as (Hi & Hs & _).
    apply list_elem_of_lookup_1 in Hp as [j Hj].
    assert (i = j) as ->; [|congruence].
    eapply NoDup_lookup; [exact Hnd| |]; unfold slugs; rewrite list_lookup_fmap.
    + by rewrite Hi.
    + rewrite Hj. simpl. by rewrite Hs.
  - apply list_find_None in Hf. rewrite Forall_forall in Hf. by destruct (Hf p Hp).
Qed.

Lemma findBySlug_absent st s : (∀ p, p ∈ st → slug p ≠ s) → findBySlug st s = None.
Proof.
  intros H. unfold findBySlug.
  destruct (list_find _ st) as [[i q]|] eqn:Hf; [|done].
  apply list_find_Some in Hf as (Hi & Hs & _).
  apply list_elem_of_lookup_2 in Hi. by destruct (H q Hi).
Qed.

(** X24.  A page renamed to an address below its own original slug is
    caught by its own cascade (unique slugs and paths, a registry whose
    sanitizing types are not named like page fields, no dollar sign in
    the new slug): the edit answers with the page under the new slug,
    but nothing is stored under that slug afterwards; the page lies one
    step further down, under the new slug followed by a slash and the
    part that was added to the original slug. *)
Theorem rename_below_itself slugify permissions types w req pg w' rest :
  typeNamesOk types → uniqueKeys (pages w) →
  Str.has Str.dollar (normalizeSlug slugify (bSlug (body req))) = false →
  normalizeSlug slugify (bSlug (body req)) = bOriginalSlug (body req) +:+ "/" +:+ rest →
  editHandler slugify permissions types w req = (Ok pg, w') →
  slug pg = normalizeSlug slugify (bSlug (body req)) ∧
  findBySlug (pages w') (normalizeSlug slugify (bSlug (body req))) = None ∧
  findBySlug (pages w') (normalizeSlug slugify (bSlug (body req)) +:+ "/" +:+ rest)
  = Some (withSlug (normalizeSlug slugify (bSlug (body req)) +:+ "/" +:+ rest) pg).
Proof.
  intros _ Huniq Hno Hnew Hedit.
  set (orig := bOriginalSlug (body req)) in *.
  set (new := normalizeSlug slugify (bSlug (body req))) in *.
  assert (Hne : orig ≠ new).
  { intros Heq. apply (f_equal String.length) in Hnew.
    rewrite <-Heq, str_app_length in Hnew. simpl in Hnew. lia. }
  destruct (editHandler_renamed _ _ _ _ _ _ _ Huniq Hno Hne Hedit)
    as (Hslug & st1 & Hput & Hst & Hnd).
  fold orig new in Hslug, Hput, Hst.
  assert (Hpre : String.prefix (orig +:+ "/") new = true).
  { apply str_prefix_iff. exists rest. by rewrite Hnew, str_app_assoc. }
  assert (Hdrop : Str.drop (String.length orig + 1) new = rest).
  { rewrite Hnew. replace (String.length orig + 1)%nat with (String.length (orig +:+ "/"))
      by (rewrite str_app_length; simpl; lia).
    by rewrite <-str_app_assoc, str_drop_app. }
  split; [done|]. split.
  - apply findBySlug_absent. intros p Hp. rewrite Hst in Hp.
    apply list_elem_of_fmap in Hp as (q & -> & Hq). unfold rewriteSlug.
    destruct (String.prefix (orig +:+ "/") (slug q)) eqn:Hq'.
    + simpl. intros Heq. apply (f_equal String.length) in Heq.
      rewrite str_app_length in Heq. simpl in Heq. lia.
    + intros Heq. by rewrite Heq, Hpre in Hq'.
  - assert (Hin : withSlug (new +:+ "/" +:+ rest) pg ∈ pages w').
    { rewrite Hst. apply list_elem_of_fmap. exists pg.
      split; [|by eapply putPage_stores].
      unfold rewriteSlug. by rewrite Hslug, Hpre, Hdrop. }
    by apply (findBySlug_unique _ _ Hnd) in Hin.
Qed.

Lemma rename_below_itself_witness :
  findBySlug
    (pages (editHandler sampleSlugify allowAll sampleTypes sampleWorld
              (editRequest "/contact" "/contact/us" "Contact" "default")).2)
    "/contact/us/us"
  = Some (samplePage "Contact" "/contact/us/us" "home/contact" 1 2).
Proof.
  destruct (rename_below_itself sampleSlugify allowAll sampleTypes sampleWorld
              (editRequest "/contact" "/contact/us" "Contact" "default")
              (samplePage "Contact" "/contact/us" "home/contact" 1 2)
              (editHandler sampleSlugify allowAll sampleTypes sampleWorld
                 (editRequest "/contact" "/contact/us" "Contact" "default")).2
              "us") as (_ & _ & H).
  - apply sampleTypes_ok.
  - apply sampleStore_unique.
  - by vm_compute.
  - by vm_compute.
  - by vm_compute.
  - exact H.
Defined.

(** ** Requests that name a type that is not registered *)



